(** * The Windows attach listener (attachListener_windows.cpp)

    A shallow embedding of the request pool, the pending queue and the
    enqueue / dequeue / complete protocol of [Win32AttachListener], and the
    properties of it that the design document states.

    Conventions of the embedding.
    - A [const char*] is the list of characters found in memory from the
      pointer on; reading stops at the first NUL, and memory past the end of
      the list reads as NUL.  A [char x[n]] member is a list of [n]
      characters.
    - A pointer to an object is [option addr]; [nullptr] is [None].  Objects
      live in a store [gmap addr _]; [new] takes a fresh address, [delete]
      removes the object.  Dereferencing [nullptr] is the fault [NullDeref],
      an address outside the store the fault [Dangling].
    - A failed [guarantee] is the fault [GuaranteeFailed].
    - HotSpot's [assert] is compiled out of product builds and is not part of
      the functions; where an assertion matters it is stated as a lemma.
    - What the operating system and the other threads decide (whether a pipe
      opens, what is read from it, whether a write succeeds, when the listener
      is ready) is an explicit argument of the function that asks. *)

From Stdlib Require Import ZArith Lia Ascii String.
From stdpp Require Import base option list gmap.
From Equations Require Import Equations.

Local Open Scope Z_scope.
#[local] Set Warnings "-clear-no-such-hyp".

(** ** Faults *)

Inductive fault := NullDeref | Dangling | GuaranteeFailed.

Inductive outcome (A : Type) : Type :=
| Ok (a : A)
| Fault (f : fault).
Arguments Ok {A} a.
Arguments Fault {A} f.

Global Instance outcome_ret : MRet outcome := fun _ a => Ok a.

Global Instance outcome_bind : MBind outcome := fun _ _ k m =>
match m with
| Ok a => k a
| Fault f => Fault f
end.

Definition guarantee (b : bool) : outcome unit :=
if b then Ok tt else Fault GuaranteeFailed.

(** ** C strings *)

Module CStr.

Definition NUL : ascii := Ascii.zero.

Definition is_nul (c : ascii) : bool := Ascii.eqb c NUL.

(** The string a [const char*] denotes: the characters before the first
    NUL. *)
Fixpoint c_str (p : list ascii) : list ascii :=
  match p with
  | [] => []
  | c :: p' => if is_nul c then [] else c :: c_str p'
  end.

Definition strlen (p : list ascii) : nat := length (c_str p).

(** [strncpy(dst, src, n)] writes exactly [n] characters: those of [src] up
    to its terminator, then NULs. *)
Fixpoint strncpy_chars (src : list ascii) (n : nat) {struct n} : list ascii :=
  match n with
  | O => []
  | S n' =>
      match src with
      | [] => replicate (S n') NUL
      | c :: src' =>
          if is_nul c then replicate (S n') NUL
          else c :: strncpy_chars src' n'
      end
  end.

Definition strncpy (dst src : list ascii) (n : nat) : list ascii :=
  strncpy_chars src n ++ drop n dst.

(** [strcpy] of the empty string into [dst] writes the terminator only. *)
Definition strcpy_empty (dst : list ascii) : list ascii := <[O := NUL]> dst.

Fixpoint starts_with (needle hay : list ascii) : bool :=
  match needle, hay with
  | [], _ => true
  | _ :: _, [] => false
  | a :: needle', b :: hay' => Ascii.eqb a b && starts_with needle' hay'
  end.

(** [strstr(hay, needle)]: the offset of the first occurrence of [needle]
    in [hay], [None] for a null result. *)
Fixpoint strstr_from (hay needle : list ascii) : option nat :=
  if starts_with needle hay then Some O
  else match hay with
       | [] => None
       | _ :: hay' => S <$> strstr_from hay' needle
       end.

Definition strstr (hay needle : list ascii) : option nat :=
  strstr_from (c_str hay) (c_str needle).

Definition lit (s : string) : list ascii := list_ascii_of_string s.

End CStr.

(** ** Constants of attachListener.hpp *)

(** Modelled from the spec: the protocol version tag [AttachAPIVersion] of
    services/attachListener.hpp, which is not among the sources.  The spec
    has the two versions V1 and V2 and an "unsupported version" case in
    dequeue; any other value of the underlying integer is
    [ATTACH_API_other]. *)
Inductive AttachAPIVersion :=
| ATTACH_API_V1
| ATTACH_API_V2
| ATTACH_API_other (v : Z).

(** Modelled from the spec: [AttachOperation::arg_count_max], the "fixed
    argument count (3)" of the spec; the declaration is in
    services/attachListener.hpp. *)
Definition arg_count_max : nat := 3.

(** ** PipeChannel *)

Definition HANDLE := Z.
Definition INVALID_HANDLE_VALUE : HANDLE := -1.

(** What a write carries.  The byte encoding of the reply belongs to the
    shared reply writer, which is not modelled. *)
Inductive payload :=
| PResult (code : Z)
| PText (text : list ascii).

(** The calls a channel makes to the operating system, in order. *)
Inductive syscall :=
| SysCreateFile (name : list ascii) (write_only : bool) (h : HANDLE)
| SysWriteFile (h : HANDLE) (p : payload) (ok : bool)
| SysFlushFileBuffers (h : HANDLE)
| SysCloseHandle (h : HANDLE).

Module PipeChannel.

Record t := mk { _hPipe : HANDLE }.

Definition new : t := mk INVALID_HANDLE_VALUE.

Definition opened (c : t) : bool := negb (_hPipe c =? INVALID_HANDLE_VALUE).

(** [created] is what [CreateFile] returns. *)
Definition open (c : t) (pipe : list ascii) (write_only : bool)
    (created : HANDLE) (log : list syscall) : bool * t * list syscall :=
  let c' := mk created in
  let log' := log ++ [SysCreateFile (CStr.c_str pipe) write_only created] in
  if _hPipe c' =? INVALID_HANDLE_VALUE then (false, c', log')
  else (true, c', log').

Definition close (c : t) (log : list syscall) : t * list syscall :=
  if opened c then (mk INVALID_HANDLE_VALUE, log ++ [SysCloseHandle (_hPipe c)])
  else (c, log).

(** [ok] is what [WriteFile] returns; the function returns [false] for the
    source's [-1]. *)
Definition write (c : t) (p : payload) (ok : bool) (log : list syscall)
    : bool * list syscall :=
  (ok, log ++ [SysWriteFile (_hPipe c) p ok]).

Definition flush (c : t) (log : list syscall) : list syscall :=
  log ++ [SysFlushFileBuffers (_hPipe c)].

End PipeChannel.

(** ** Bounds declared in attachListener.hpp *)

(** [AttachOperation::name_length_max] and [AttachOperation::arg_length_max]
    are declared in services/attachListener.hpp, which is not among the
    sources; the development is parametric in them. *)
Class Bounds := {
  name_length_max : nat;
  arg_length_max : nat
}.

Definition addr := nat.

(** ** Win32AttachOperation *)

Module Win32AttachOperation.

Definition pipe_name_max : nat := 256.

(** [name] and [args] are the members of the base class [AttachOperation]. *)
Record t := mk {
  name : list ascii;
  args : list (list ascii);
  _pipe : PipeChannel.t
}.

Definition new : t := mk [] [] PipeChannel.new.

(** Modelled from the spec: [AttachOperation::set_name] of
    services/attachListener.hpp; the operation carries the command name
    "copied from the slot". *)
Definition set_name (op : t) (p : list ascii) : t :=
  mk (CStr.c_str p) (args op) (_pipe op).

(** Modelled from the spec: [AttachOperation::append_arg] of
    services/attachListener.hpp; the argument is copied, and an absent
    argument is "represented as empty text". *)
Definition append_arg (op : t) (p : option (list ascii)) : t :=
  mk (name op) (args op ++ [from_option CStr.c_str [] p]) (_pipe op).

Definition open_pipe (op : t) (pipe_name : list ascii) (write_only : bool)
    (created : HANDLE) (log : list syscall) : bool * t * list syscall :=
  let '(ok, c, log') := PipeChannel.open (_pipe op) pipe_name write_only created log in
  (ok, mk (name op) (args op) c, log').

(** Modelled from the spec: [AttachOperation::read_request] of
    services/attachListener.cpp, which reads "the full request (command +
    arguments) from the channel"; [decoded] is what the shared request reader
    obtained, [None] when it failed. *)
Definition read_request (op : t)
    (decoded : option (list ascii * list (list ascii))) : bool * t :=
  match decoded with
  | Some (n, a) => (true, mk n a (_pipe op))
  | None => (false, op)
  end.

(** Modelled from the spec: [AttachOperation::write_reply] of
    services/attachListener.cpp: "writes the numeric result code followed by
    the accumulated textual output to the bound Channel, flushes it"; a
    failed write ends the reply ("no retry").  [w1] and [w2] are the outcomes
    of the two writes. *)
Definition write_reply (writer : PipeChannel.t) (result : Z) (text : list ascii)
    (w1 w2 : bool) (log : list syscall) : bool * list syscall :=
  let '(ok1, log1) := PipeChannel.write writer (PResult result) w1 log in
  if negb ok1 then (false, log1)
  else
    let '(ok2, log2) := PipeChannel.write writer (PText text) w2 log1 in
    if negb ok2 then (false, log2)
    else (true, PipeChannel.flush writer log2).

End Win32AttachOperation.

(** ** The process: live operations and the system calls made so far *)

Module World.

Record t := mk {
  ops : gmap addr Win32AttachOperation.t;
  syslog : list syscall
}.

Definition empty : t := mk ∅ [].

(** [new Win32AttachOperation()] *)
Definition new_op (w : t) : addr * t :=
  let a := fresh (dom (ops w)) in
  (a, mk (<[a := Win32AttachOperation.new]> (ops w)) (syslog w)).

Definition deref (w : t) (p : option addr) : outcome Win32AttachOperation.t :=
  match p with
  | None => Fault NullDeref
  | Some a =>
      match ops w !! a with
      | Some op => Ok op
      | None => Fault Dangling
      end
  end.

(** [delete op]: the destructor of [Win32AttachOperation] runs that of its
    [PipeChannel] member, which calls [close()]; then the object is gone. *)
Definition delete_op (w : t) (p : option addr) : outcome t :=
  match p with
  | None => Ok w
  | Some a =>
      match ops w !! a with
      | Some op =>
          let '(_, log') := PipeChannel.close (Win32AttachOperation._pipe op) (syslog w) in
          Ok (mk (delete a (ops w)) log')
      | None => Fault Dangling
      end
  end.

(** [op->m(...)] for a member function [m] that changes the operation *)
Definition update (w : t) (p : option addr)
    (m : Win32AttachOperation.t -> Win32AttachOperation.t) : outcome t :=
  op ← deref w p;
  match p with
  | Some a => Ok (mk (<[a := m op]> (ops w)) (syslog w))
  | None => Fault NullDeref
  end.

(** [op->open_pipe(pipe_name, write_only)] *)
Definition open_pipe (w : t) (p : option addr) (pipe_name : list ascii)
    (write_only : bool) (created : HANDLE) : outcome (bool * t) :=
  op ← deref w p;
  let '(ok, op', log') :=
    Win32AttachOperation.open_pipe op pipe_name write_only created (syslog w) in
  match p with
  | Some a => Ok (ok, mk (<[a := op']> (ops w)) log')
  | None => Fault NullDeref
  end.

(** [op->read_request()] *)
Definition read_request (w : t) (p : option addr)
    (decoded : option (list ascii * list (list ascii))) : outcome (bool * t) :=
  op ← deref w p;
  let '(ok, op') := Win32AttachOperation.read_request op decoded in
  match p with
  | Some a => Ok (ok, mk (<[a := op']> (ops w)) (syslog w))
  | None => Fault NullDeref
  end.

End World.

(** [Win32AttachOperation::complete]: [writes] are the outcomes of the two
    writes of the reply.  The value [write_reply] returns is dropped. *)
Definition complete (w : World.t) (this : option addr) (result : Z)
    (result_stream : list ascii) (writes : bool * bool) : outcome World.t :=
  op ← World.deref w this;
  let '(_, log') :=
    Win32AttachOperation.write_reply (Win32AttachOperation._pipe op)
      result result_stream (fst writes) (snd writes) (World.syslog w) in
  World.delete_op (World.mk (World.ops w) log') this.

(** ** Win32AttachOperationRequest *)

Module Win32AttachOperationRequest.

Record t := mk {
  _ver : AttachAPIVersion;
  _name : list ascii;
  _arg : list (list ascii);
  _pipe : list ascii;
  _next : option addr
}.

Section Sizes.
Context `{Bounds}.

(** [sizeof(_name)], [sizeof(_arg[i])], [sizeof(_pipe)] *)
Definition sizeof_name : nat := (name_length_max + 1)%nat.
Definition sizeof_arg : nat := (arg_length_max + 1)%nat.
Definition sizeof_pipe : nat := (Win32AttachOperation.pipe_name_max + 1)%nat.

Definition set_value (dst : list ascii) (str : option (list ascii))
    (dst_size : nat) : list ascii :=
  match str with
  | Some s =>
      <[(dst_size - 1)%nat := CStr.NUL]> (CStr.strncpy dst s (dst_size - 1))
  | None => CStr.strcpy_empty dst
  end.

Definition set (r : t) (ver : AttachAPIVersion) (pipename : option (list ascii))
    (cmd arg0 arg1 arg2 : option (list ascii)) : t :=
  let name' := set_value (_name r) cmd sizeof_name in
  let arg' := alter (fun dst => set_value dst arg0 sizeof_arg) 0%nat (_arg r) in
  let arg' := alter (fun dst => set_value dst arg1 sizeof_arg) 1%nat arg' in
  let arg' := alter (fun dst => set_value dst arg2 sizeof_arg) 2%nat arg' in
  let pipe' := set_value (_pipe r) pipename sizeof_pipe in
  mk ver name' arg' pipe' (_next r).

(** The object as [new] hands it to the constructor; the characters of fresh
    memory are taken to be NUL. *)
Definition raw : t :=
  mk ATTACH_API_V1
     (replicate sizeof_name CStr.NUL)
     (replicate arg_count_max (replicate sizeof_arg CStr.NUL))
     (replicate sizeof_pipe CStr.NUL)
     None.

End Sizes.

Definition ver (r : t) : AttachAPIVersion := _ver r.

Definition cmd (r : t) : list ascii := _name r.

Definition arg (r : t) (i : Z) : option (list ascii) :=
  if (0 <=? i) && (i <? Z.of_nat arg_count_max) then _arg r !! Z.to_nat i
  else None.

Definition pipe (r : t) : list ascii := _pipe r.

Definition next (r : t) : option addr := _next r.

Definition set_next (r : t) (next : option addr) : t :=
  mk (_ver r) (_name r) (_arg r) (_pipe r) next.

(** The no-argument constructor. *)
Definition new `{Bounds} : t :=
  set_next (set raw ATTACH_API_V1 (Some (CStr.lit "<nopipe>")) None None None None) None.

End Win32AttachOperationRequest.

(** ** Win32AttachListener *)

Module Win32AttachListener.

Definition max_enqueued_operations : Z := 4.

Definition ATTACH_ERROR_DISABLED : Z := 100.
Definition ATTACH_ERROR_RESOURCE : Z := 101.
Definition ATTACH_ERROR_ILLEGALARG : Z := 102.
Definition ATTACH_ERROR_INTERNAL : Z := 103.

Definition WAIT_OBJECT_0 : Z := 0.
Definition WAIT_FAILED : Z := 4294967295.

(** The statics of the class and the store of the preallocated requests.
    [_enqueued_ops_semaphore] is the count of the semaphore; its maximum is
    [max_enqueued_operations].  The mutex is not a field: a function that
    runs under it runs as one step. *)
Record t := mk {
  requests : gmap addr Win32AttachOperationRequest.t;
  _avail : option addr;
  _head : option addr;
  _tail : option addr;
  _enqueued_ops_semaphore : Z
}.

Definition head (s : t) : option addr := _head s.
Definition set_head (s : t) (head : option addr) : t :=
  mk (requests s) (_avail s) head (_tail s) (_enqueued_ops_semaphore s).

Definition tail (s : t) : option addr := _tail s.
Definition set_tail (s : t) (tail : option addr) : t :=
  mk (requests s) (_avail s) (_head s) tail (_enqueued_ops_semaphore s).

Definition available (s : t) : option addr := _avail s.
Definition set_available (s : t) (avail : option addr) : t :=
  mk (requests s) avail (_head s) (_tail s) (_enqueued_ops_semaphore s).

Definition set_requests (s : t) (h : gmap addr Win32AttachOperationRequest.t) : t :=
  mk h (_avail s) (_head s) (_tail s) (_enqueued_ops_semaphore s).

Definition set_semaphore (s : t) (count : Z) : t :=
  mk (requests s) (_avail s) (_head s) (_tail s) count.

(** [*p] *)
Definition deref (s : t) (p : option addr) : outcome Win32AttachOperationRequest.t :=
  match p with
  | None => Fault NullDeref
  | Some a =>
      match requests s !! a with
      | Some r => Ok r
      | None => Fault Dangling
      end
  end.

(** [p->m(...)] for a member function [m] that changes the object *)
Definition update (s : t) (p : option addr)
    (m : Win32AttachOperationRequest.t -> Win32AttachOperationRequest.t) : outcome t :=
  match p with
  | None => Fault NullDeref
  | Some a =>
      match requests s !! a with
      | Some r => Ok (set_requests s (<[a := m r]> (requests s)))
      | None => Fault Dangling
      end
  end.

Section Listener.
Context `{Bounds}.

(** The body of the preallocation loop of [init]. *)
Definition init_body (s : t) : t :=
  let a := fresh (dom (requests s)) in
  let op := Win32AttachOperationRequest.new in
  let op := Win32AttachOperationRequest.set_next op (available s) in
  set_available (set_requests s (<[a := op]> (requests s))) (Some a).

(** [mutex_created] and [semaphore_created]: whether [CreateMutex] and
    [CreateSemaphore] returned a handle. *)
Definition init (mutex_created semaphore_created : bool) : outcome t :=
  _ ← guarantee mutex_created;
  _ ← guarantee semaphore_created;
  let s := mk ∅ None None None 0 in
  let s := set_head s None in
  let s := set_tail s None in
  let s := set_available s None in
  Ok (Nat.iter (Z.to_nat max_enqueued_operations) init_body s).

(** The readiness loop of [enqueue].  [is_initialized k] is the answer of
    [AttachListener::is_initialized()] after [k] calls of [Sleep]; the
    function returns whether the listener was seen up, and the calls of
    [Sleep] it made. *)
Equations wait_for_listener (is_initialized : nat -> bool) (sleep_count : Z)
    (sleeps : list Z) : bool * list Z
    by wf (Z.to_nat (11 - sleep_count)) lt :=
wait_for_listener is_initialized sleep_count sleeps :=
  if is_initialized (length sleeps) then (true, sleeps)
  else
    let sleeps' := sleeps ++ [1000] in
    match Z_gt_dec (sleep_count + 1) 10 with
    | left _ => (false, sleeps')
    | right _ => wait_for_listener is_initialized (sleep_count + 1) sleeps'
    end.
Next Obligation. lia. Qed.

(** The checks of the parameters: [true] when one of them fails. *)
Definition illegal_arguments (cmd arg0 arg1 arg2 pipename : list ascii) : bool :=
  if (name_length_max <? CStr.strlen cmd)%nat then true
  else if (arg_length_max <? CStr.strlen arg0)%nat then true
  else if (arg_length_max <? CStr.strlen arg1)%nat then true
  else if (arg_length_max <? CStr.strlen arg2)%nat then true
  else if (Win32AttachOperation.pipe_name_max <? CStr.strlen pipename)%nat then true
  else if negb (bool_decide (CStr.strstr pipename (CStr.lit "\\.\pipe\") = Some O)) then true
  else false.

(** [ReleaseSemaphore(enqueued_ops_semaphore(), 1, nullptr)]: fails, leaving
    the count as it is, when the count would exceed the maximum. *)
Definition ReleaseSemaphore (s : t) : bool * t :=
  if _enqueued_ops_semaphore s + 1 <=? max_enqueued_operations
  then (true, set_semaphore s (_enqueued_ops_semaphore s + 1))
  else (false, s).

(** The part of [enqueue] that runs under the mutex. *)
Definition enqueue_locked (s : t) (ver : AttachAPIVersion)
    (cmd arg0 arg1 arg2 pipename : list ascii) : outcome (Z * t) :=
  let op := available s in
  match op with
  | Some _ =>
      r ← deref s op;
      let s := set_available s (Win32AttachOperationRequest.next r) in
      s ← update s op (fun r => Win32AttachOperationRequest.set_next r None);
      s ← match tail s with
          | None => Ok (set_head s op)
          | Some _ =>
              update s (tail s) (fun t => Win32AttachOperationRequest.set_next t op)
          end;
      let s := set_tail s op in
      s ← update s op (fun r =>
             Win32AttachOperationRequest.set r ver (Some pipename)
               (Some cmd) (Some arg0) (Some arg1) (Some arg2));
      let '(not_exceeding_semaphore_maximum_count, s) := ReleaseSemaphore s in
      _ ← guarantee not_exceeding_semaphore_maximum_count;
      Ok (0, s)
  | None => Ok (ATTACH_ERROR_RESOURCE, s)
  end.

(** What the caller of [enqueue] meets: the answers of
    [AttachListener::is_initialized()] and the value of
    [WaitForSingleObject(mutex(), INFINITE)]. *)
Record enqueue_env := mk_enqueue_env {
  is_initialized : nat -> bool;
  mutex_wait : Z
}.

Definition enqueue (env : enqueue_env) (s : t) (ver : AttachAPIVersion)
    (cmd arg0 arg1 arg2 pipename : list ascii) : outcome (Z * t) :=
  if negb (fst (wait_for_listener (is_initialized env) 0 []))
  then Ok (ATTACH_ERROR_DISABLED, s)
  else if illegal_arguments cmd arg0 arg1 arg2 pipename
  then Ok (ATTACH_ERROR_ILLEGALARG, s)
  else if negb (mutex_wait env =? WAIT_OBJECT_0)
  then Ok (ATTACH_ERROR_INTERNAL, s)
  else enqueue_locked s ver cmd arg0 arg1 arg2 pipename.

(** What one turn of the loop of [dequeue] meets: the values of the two
    calls of [WaitForSingleObject], the handle [CreateFile] returns and what
    the shared request reader decodes from the pipe. *)
Record dequeue_env := mk_dequeue_env {
  semaphore_wait : Z;
  dequeue_mutex_wait : Z;
  created : HANDLE;
  decoded : option (list ascii * list (list ascii))
}.

(** The wait for the semaphore has returned with [res]: the count is one
    less.  The wait returns only when the count is positive; the caller of
    this function checks it. *)
Definition dequeue_wake (s : t) (res : Z) : outcome t :=
  _ ← guarantee (negb (res =? WAIT_FAILED));
  _ ← guarantee (res =? WAIT_OBJECT_0);
  Ok (set_semaphore s (_enqueued_ops_semaphore s - 1)).

(** [for (int i = 0; i < arg_count_max; i++) op->append_arg(request->arg(i))] *)
Fixpoint append_args (w : World.t) (op : option addr)
    (request : Win32AttachOperationRequest.t) (i : Z) (n : nat) : outcome World.t :=
  match n with
  | O => Ok w
  | S n' =>
      w ← World.update w op (fun o =>
             Win32AttachOperation.append_arg o (Win32AttachOperationRequest.arg request i));
      append_args w op request (i + 1) n'
  end.

(** The [switch] on the version of the request. *)
Definition dispatch (request : Win32AttachOperationRequest.t) (e : dequeue_env)
    (w : World.t) : outcome (option addr * World.t) :=
  match Win32AttachOperationRequest.ver request with
  | ATTACH_API_V1 =>
      let '(a, w) := World.new_op w in
      let op := Some a in
      w ← World.update w op (fun o =>
             Win32AttachOperation.set_name o (Win32AttachOperationRequest.cmd request));
      w ← append_args w op request 0 arg_count_max;
      '(ok, w) ← World.open_pipe w op (Win32AttachOperationRequest.pipe request) true (created e);
      if negb ok then
        w ← World.delete_op w op;
        Ok (None, w)
      else Ok (op, w)
  | ATTACH_API_V2 =>
      let '(a, w) := World.new_op w in
      let op := Some a in
      '(ok, w) ← World.open_pipe w op (Win32AttachOperationRequest.pipe request) false (created e);
      if negb ok then
        w ← World.delete_op w op;
        Ok (None, w)
      else
        '(ok, w) ← World.read_request w op (decoded e);
        if negb ok then
          w ← World.delete_op w op;
          Ok (None, w)
        else Ok (op, w)
  | ATTACH_API_other _ => Ok (None, w)
  end.

(** The first part of a turn of [dequeue] under the mutex: the request at the
    head leaves the list and is dispatched.  The function returns the two
    locals [request] and [op]. *)
Definition dequeue_take (s : t) (e : dequeue_env) (w : World.t)
    : outcome (t * World.t * option addr * option addr) :=
  let request := head s in
  match request with
  | Some _ =>
      r ← deref s request;
      let s := set_head s (Win32AttachOperationRequest.next r) in
      let s := match head s with
               | None => set_tail s None
               | Some _ => s
               end in
      '(op, w) ← dispatch r e w;
      Ok (s, w, request, op)
  | None => Ok (s, w, request, None)
  end.

(** The second part: the request goes back on the available list, whatever
    [request] is. *)
Definition dequeue_put_back (s : t) (request : option addr) : outcome t :=
  s ← update s request (fun r => Win32AttachOperationRequest.set_next r (available s));
  Ok (set_available s request).

(** One turn of the loop of [dequeue] once the semaphore wait has
    returned. *)
Definition dequeue_turn (s : t) (e : dequeue_env) (w : World.t)
    : outcome (t * World.t * option addr * option addr) :=
  s ← dequeue_wake s (semaphore_wait e);
  _ ← guarantee (negb (dequeue_mutex_wait e =? WAIT_FAILED));
  _ ← guarantee (dequeue_mutex_wait e =? WAIT_OBJECT_0);
  '(s, w, request, op) ← dequeue_take s e w;
  s ← dequeue_put_back s request;
  Ok (s, w, request, op).

(** How a run of [dequeue] with no other thread around ends: it returns an
    operation, or it is left waiting for the semaphore, whose count is zero.
    [ScriptEnded] says that the list of environments given was too short. *)
Inductive dequeue_end :=
| Returned (op : addr)
| Blocked
| ScriptEnded.

(** [dequeue]; the k-th element of [script] is what the k-th turn of the loop
    meets. *)
Fixpoint dequeue (script : list dequeue_env) (s : t) (w : World.t)
    : outcome (dequeue_end * t * World.t) :=
  if _enqueued_ops_semaphore s <=? 0 then Ok (Blocked, s, w)
  else
    match script with
    | [] => Ok (ScriptEnded, s, w)
    | e :: script' =>
        '(s, w, _, op) ← dequeue_turn s e w;
        match op with
        | Some a => Ok (Returned a, s, w)
        | None => dequeue script' s w
        end
    end.

End Listener.

End Win32AttachListener.

(** ** The lists threaded through the requests *)

Module Lists.

Import Win32AttachListener.

(** The addresses met from [p] along the [_next] members, at most [fuel] of
    them. *)
Fixpoint walk (fuel : nat) (h : gmap addr Win32AttachOperationRequest.t)
    (p : option addr) : list addr :=
  match fuel, p with
  | S fuel', Some a =>
      match h !! a with
      | Some r => a :: walk fuel' h (Win32AttachOperationRequest._next r)
      | None => []
      end
  | _, _ => []
  end.

(** The free pool: the list that starts at [_avail]. *)
Definition pool (s : t) : list addr :=
  walk (size (requests s)) (requests s) (_avail s).

(** The pending queue: the list that starts at [_head]. *)
Definition pending (s : t) : list addr :=
  walk (size (requests s)) (requests s) (_head s).

(** [chain h p l]: from [p] the [_next] members lead through exactly the
    addresses [l] and then to [nullptr]. *)
Fixpoint chain (h : gmap addr Win32AttachOperationRequest.t) (p : option addr)
    (l : list addr) : Prop :=
  match l with
  | [] => p = None
  | a :: l' =>
      p = Some a /\
      exists r, h !! a = Some r /\ chain h (Win32AttachOperationRequest._next r) l'
  end.

(** The members of a request have their declared sizes. *)
Definition sized `{Bounds} (r : Win32AttachOperationRequest.t) : Prop :=
  length (Win32AttachOperationRequest._name r) = Win32AttachOperationRequest.sizeof_name /\
  length (Win32AttachOperationRequest._arg r) = arg_count_max /\
  Forall (fun b => length b = Win32AttachOperationRequest.sizeof_arg)
         (Win32AttachOperationRequest._arg r) /\
  length (Win32AttachOperationRequest._pipe r) = Win32AttachOperationRequest.sizeof_pipe.

(** [shape s free queue flight]: the available list is [free], the list of
    enqueued requests is [queue] with [_tail] at its last element, and these
    together with the requests [flight] held by a turn of [dequeue] are the
    requests of the store, each once. *)
Record shape `{Bounds} (s : t) (free queue flight : list addr) : Prop := mk_shape {
  shape_avail : chain (requests s) (_avail s) free;
  shape_queue : chain (requests s) (_head s) queue;
  shape_tail : _tail s = last queue;
  shape_nodup : NoDup (free ++ queue ++ flight);
  shape_dom : forall a, a ∈ free ++ queue ++ flight <-> is_Some (requests s !! a);
  shape_count : size (requests s) = Z.to_nat max_enqueued_operations;
  shape_sized : forall a r, requests s !! a = Some r -> sized r
}.

End Lists.

(** ** The threads *)

Module System.

Import Win32AttachListener.

(** Where the attach listener thread is: about to wait for the semaphore
    (line 375), past that wait and about to take the mutex (line 381), under
    the mutex with the locals [request] and [op] set (line 422), or out of
    [dequeue] with the operation it returned, which it executes and then
    completes. *)
Inductive consumer :=
| AtSemaphore
| AtMutex
| InService (request op : option addr)
| Executing (op : addr).

Record t := mk {
  listener : Win32AttachListener.t;
  world : World.t;
  pc : consumer
}.

Definition mutex_free (c : consumer) : bool :=
  match c with
  | InService _ _ => false
  | _ => true
  end.

(** The requests a turn of [dequeue] holds. *)
Definition in_flight (c : consumer) : list addr :=
  match c with
  | InService (Some a) _ => [a]
  | _ => []
  end.

(** Wakeups taken from the semaphore whose request is still in the queue. *)
Definition woken (c : consumer) : Z :=
  match c with
  | AtMutex => 1
  | _ => 0
  end.

Section Steps.
Context `{Bounds}.

(** The steps of the process.  A call of [enqueue] by a client thread is one
    step: it changes the shared state under the mutex only, so it runs when
    the listener thread is not under the mutex.  A turn of [dequeue] is three
    steps of the listener thread. *)
Inductive step : t -> t -> Prop :=
| step_enqueue σ env ver cmd arg0 arg1 arg2 pipename code s' :
    mutex_free (pc σ) = true ->
    enqueue env (listener σ) ver cmd arg0 arg1 arg2 pipename = Ok (code, s') ->
    step σ (mk s' (world σ) (pc σ))
| step_wake σ res s' :
    pc σ = AtSemaphore ->
    0 < _enqueued_ops_semaphore (listener σ) ->
    dequeue_wake (listener σ) res = Ok s' ->
    step σ (mk s' (world σ) AtMutex)
| step_take σ e s' w' request op :
    pc σ = AtMutex ->
    guarantee (negb (dequeue_mutex_wait e =? WAIT_FAILED)) = Ok tt ->
    guarantee (dequeue_mutex_wait e =? WAIT_OBJECT_0) = Ok tt ->
    dequeue_take (listener σ) e (world σ) = Ok (s', w', request, op) ->
    step σ (mk s' w' (InService request op))
| step_put_back σ request op s' :
    pc σ = InService request op ->
    dequeue_put_back (listener σ) request = Ok s' ->
    step σ (mk s' (world σ)
              match op with
              | Some a => Executing a
              | None => AtSemaphore
              end)
| step_complete σ a result result_stream writes w' :
    pc σ = Executing a ->
    complete (world σ) (Some a) result result_stream writes = Ok w' ->
    step σ (mk (listener σ) w' AtSemaphore).

(** The state [init] leaves, the listener thread entering [dequeue]. *)
Definition initial (σ : t) : Prop :=
  init true true = Ok (listener σ) /\ world σ = World.empty /\ pc σ = AtSemaphore.

Inductive reachable : t -> Prop :=
| reachable_initial σ : initial σ -> reachable σ
| reachable_step σ σ' : reachable σ -> step σ σ' -> reachable σ'.

End Steps.

End System.

(** The state [init] leaves when the mutex and the semaphore were created. *)
Definition init_state `{Bounds} : Win32AttachListener.t :=
  Nat.iter (Z.to_nat Win32AttachListener.max_enqueued_operations)
    Win32AttachListener.init_body
    (Win32AttachListener.mk ∅ None None None 0).

(** A request with its link cleared: what two requests share when they
    differ in [_next] at most. *)
Definition unlinked (r : Win32AttachOperationRequest.t) : Win32AttachOperationRequest.t :=
  Win32AttachOperationRequest.set_next r None.

(** What the accessors of a request give, the strings read as C strings. *)
Definition stored (r : Win32AttachOperationRequest.t)
    : AttachAPIVersion * list ascii * list (list ascii) * list ascii :=
  (Win32AttachOperationRequest.ver r,
   CStr.c_str (Win32AttachOperationRequest.cmd r),
   CStr.c_str <$> Win32AttachOperationRequest._arg r,
   CStr.c_str (Win32AttachOperationRequest.pipe r)).

(** The invariant of the process: the lists are well shaped and hold the
    requests [init] allocated; the count of the semaphore is not negative, and with
    the wakeup the listener thread has taken but not yet served it adds up to
    the length of the queue; the local [request] of a turn under the mutex is not null; an
    operation in the hands of the listener thread is live with its pipe
    open. *)
Definition inv `{Bounds} (σ : System.t) : Prop :=
  exists free queue,
    Lists.shape (System.listener σ) free queue (System.in_flight (System.pc σ)) /\
    free ++ queue ++ System.in_flight (System.pc σ) ≡ₚ Lists.pool init_state /\
    0 <= Win32AttachListener._enqueued_ops_semaphore (System.listener σ) /\
    Win32AttachListener._enqueued_ops_semaphore (System.listener σ)
      + System.woken (System.pc σ) = Z.of_nat (length queue) /\
    match System.pc σ with
    | System.InService None _ => False
    | System.InService (Some _) (Some a) | System.Executing a =>
        exists o, World.ops (System.world σ) !! a = Some o /\
                  PipeChannel.opened (Win32AttachOperation._pipe o) = true
    | _ => True
    end.

(** ** Runs of calls *)

(** The arguments of a call of [enqueue]. *)
Record call := mk_call {
  call_ver : AttachAPIVersion;
  call_cmd : list ascii;
  call_arg0 : list ascii;
  call_arg1 : list ascii;
  call_arg2 : list ascii;
  call_pipename : list ascii
}.

(** What a call asks to be stored, as [stored] reads it back. *)
Definition sent (c : call) : AttachAPIVersion * list ascii * list (list ascii) * list ascii :=
  (call_ver c, CStr.c_str (call_cmd c),
   [CStr.c_str (call_arg0 c); CStr.c_str (call_arg1 c); CStr.c_str (call_arg2 c)],
   CStr.c_str (call_pipename c)).

Section Runs.
Context `{Bounds}.
Import Win32AttachListener.

Definition enqueue_call (env : enqueue_env) (s : Win32AttachListener.t) (c : call)
    : outcome (Z * Win32AttachListener.t) :=
  enqueue env s (call_ver c) (call_cmd c) (call_arg0 c) (call_arg1 c) (call_arg2 c)
    (call_pipename c).

(** The listener is seen up and the mutex is acquired. *)
Definition ready (env : enqueue_env) : Prop :=
  fst (wait_for_listener (is_initialized env) 0 []) = true /\
  mutex_wait env = WAIT_OBJECT_0.

(** The checks of the parameters pass. *)
Definition acceptable (c : call) : Prop :=
  illegal_arguments (call_cmd c) (call_arg0 c) (call_arg1 c) (call_arg2 c)
    (call_pipename c) = false.

(** The two waits of a turn of [dequeue] return [WAIT_OBJECT_0]. *)
Definition calm (e : dequeue_env) : Prop :=
  semaphore_wait e = WAIT_OBJECT_0 /\ dequeue_mutex_wait e = WAIT_OBJECT_0.

(** Calls of [enqueue] one after the other, with the codes they return. *)
Fixpoint enqueue_all (calls : list (enqueue_env * call)) (s : Win32AttachListener.t)
    : outcome (list Z * Win32AttachListener.t) :=
  match calls with
  | [] => Ok ([], s)
  | (env, c) :: calls' =>
      '(code, s) ← enqueue_call env s c;
      '(codes, s) ← enqueue_all calls' s;
      Ok (code :: codes, s)
  end.

(** What a turn of [dequeue] served: the local [request], what that request
    held when it was taken, and the local [op]. *)
Definition service : Type :=
  option addr
  * option (AttachAPIVersion * list ascii * list (list ascii) * list ascii)
  * option addr.

(** Turns of [dequeue] one after the other, for as long as the semaphore
    lets the listener thread through. *)
Fixpoint dequeue_turns (es : list dequeue_env) (s : Win32AttachListener.t) (w : World.t)
    : outcome (list service * Win32AttachListener.t * World.t) :=
  match es with
  | [] => Ok ([], s, w)
  | e :: es' =>
      if _enqueued_ops_semaphore s <=? 0 then Ok ([], s, w)
      else
        '(s', w', request, op) ← dequeue_turn s e w;
        let held := request ≫= fun a => stored <$> requests s !! a in
        '(rest, s'', w'') ← dequeue_turns es' s' w';
        Ok ((request, held, op) :: rest, s'', w'')
  end.

End Runs.

(** ** Sample inputs *)

(** An instance of the two bounds,
    used where a statement is run on concrete input. *)
Definition sample_bounds : Bounds :=
  {| name_length_max := 16; arg_length_max := 1024 |}.

(** A caller that finds the listener up and gets the mutex. *)
Definition sample_env : Win32AttachListener.enqueue_env :=
  Win32AttachListener.mk_enqueue_env (fun _ => true) Win32AttachListener.WAIT_OBJECT_0.

(** A V1 request with command C and arguments a, empty, empty. *)
Definition sample_call : call :=
  mk_call ATTACH_API_V1 (CStr.lit "C") (CStr.lit "a") [] []
    (CStr.lit "\\.\pipe\javatool1").

(** A V2 request, as [JVM_EnqueueOperation_v2] makes it. *)
Definition sample_call_v2 : call :=
  mk_call ATTACH_API_V2 [] [] [] []
    (CStr.lit "\\.\pipe\javatool2").

(** A turn of [dequeue] in which the pipe opens with handle 77 and the
    request reader decodes a command. *)
Definition sample_turn : Win32AttachListener.dequeue_env :=
  Win32AttachListener.mk_dequeue_env Win32AttachListener.WAIT_OBJECT_0
    Win32AttachListener.WAIT_OBJECT_0 77
    (Some (CStr.lit "jcmd", [CStr.lit "VM.version"])).

(** A turn of [dequeue] in which the pipe does not open. *)
Definition sample_turn_no_pipe : Win32AttachListener.dequeue_env :=
  Win32AttachListener.mk_dequeue_env Win32AttachListener.WAIT_OBJECT_0
    Win32AttachListener.WAIT_OBJECT_0 INVALID_HANDLE_VALUE None.

(** A call whose strings have exactly the greatest lengths allowed by
    [sample_bounds]. *)
Definition sample_call_longest : call :=
  mk_call ATTACH_API_V1 (replicate 16 "c"%char) (replicate 1024 "x"%char)
    (replicate 1024 "y"%char) (replicate 1024 "z"%char)
    (CStr.lit "\\.\pipe\" ++ replicate 247 "p"%char).

(** A call whose command is one character too long for [sample_bounds]. *)
Definition sample_call_long_command : call :=
  mk_call ATTACH_API_V1 (replicate 17 "c"%char) [] [] []
    (CStr.lit "\\.\pipe\javatool1").

Section SampleStates.
#[local] Existing Instance sample_bounds.
Import Win32AttachListener.

(** The listener after [init] and two calls of [enqueue]. *)
Definition sample_listener_two : Win32AttachListener.t :=
  match enqueue_all [(sample_env, sample_call); (sample_env, sample_call_v2)] init_state with
  | Ok (_, s) => s
  | Fault _ => init_state
  end.

(** The process after [init]. *)
Definition sample_state_initial : System.t :=
  System.mk init_state World.empty System.AtSemaphore.

(** The process after [init] and one call of [enqueue]. *)
Definition sample_state_enqueued : System.t :=
  match enqueue_call sample_env init_state sample_call with
  | Ok (_, s) => System.mk s World.empty System.AtSemaphore
  | Fault _ => sample_state_initial
  end.

(** Then the wait of the listener thread for the semaphore has returned. *)
Definition sample_state_woken : System.t :=
  match dequeue_wake (System.listener sample_state_enqueued) WAIT_OBJECT_0 with
  | Ok s => System.mk s World.empty System.AtMutex
  | Fault _ => sample_state_enqueued
  end.

(** Then the listener thread has taken the request under the mutex. *)
Definition sample_state_in_service : System.t :=
  match dequeue_take (System.listener sample_state_woken) sample_turn World.empty with
  | Ok (s, w, request, op) => System.mk s w (System.InService request op)
  | Fault _ => sample_state_woken
  end.

(** A process with one live operation, its pipe open with handle 77. *)
Definition sample_world : World.t :=
  World.mk
    {[ 0%nat := Win32AttachOperation.mk (CStr.lit "C")
                  [CStr.lit "a"; []; []] (PipeChannel.mk 77) ]}
    [SysCreateFile (CStr.lit "\\.\pipe\javatool1") true 77].

(** Then the request is back on the available list and [dequeue] has
    returned the operation, which the listener thread executes. *)
Definition sample_state_executing : System.t :=
  match dequeue_put_back (System.listener sample_state_in_service) (Some 3%nat) with
  | Ok s => System.mk s (System.world sample_state_in_service) (System.Executing 0%nat)
  | Fault _ => sample_state_in_service
  end.

End SampleStates.

(** A request with a version the [switch] of [dequeue] does not know. *)
Definition sample_call_other : call :=
  mk_call (ATTACH_API_other 3) (CStr.lit "C") [] [] []
    (CStr.lit "\\.\pipe\javatool3").

(** ** The entry points and the rest of the file *)

Section EntryPoints.
Context `{Bounds}.
Import Win32AttachListener.

(** [JVM_EnqueueOperation] and [JVM_EnqueueOperation_v2], which the native
    thread started by the client executes.  The empty string literal is a
    pointer at a NUL.  The cast to [jint] leaves the codes as they are. *)
Definition JVM_EnqueueOperation (env : enqueue_env) (s : Win32AttachListener.t)
    (cmd arg0 arg1 arg2 pipename : list ascii) : outcome (Z * Win32AttachListener.t) :=
  enqueue env s ATTACH_API_V1 cmd arg0 arg1 arg2 pipename.

Definition JVM_EnqueueOperation_v2 (env : enqueue_env) (s : Win32AttachListener.t)
    (pipename : list ascii) : outcome (Z * Win32AttachListener.t) :=
  enqueue env s ATTACH_API_V2 [] [] [] [] pipename.

End EntryPoints.

(** The casts between [int] and [DWORD] in [PipeChannel::read] and
    [PipeChannel::write]. *)
Definition DWORD_of_int (size : Z) : Z := size mod 2 ^ 32.
Definition int_of_DWORD (n : Z) : Z := (n + 2 ^ 31) mod 2 ^ 32 - 2 ^ 31.

(** [PipeChannel::read] and [PipeChannel::write] as far as their return value
    goes: [fSuccess] is what [ReadFile] or [WriteFile] returns and [n] the
    count it stores ([nread] or [written]). *)
Definition PipeChannel_read (size : Z) (fSuccess : bool) (nread : Z) : Z :=
  if negb fSuccess then -1 else int_of_DWORD nread.

Definition PipeChannel_write (size : Z) (fSuccess : bool) (written : Z) : Z :=
  if negb fSuccess then -1 else int_of_DWORD written.

(** The handles a log leaves open: those [CreateFile] returned, less those
    given to [CloseHandle]. *)
Fixpoint handles_open (log : list syscall) : Z :=
  match log with
  | [] => 0
  | SysCreateFile _ _ h :: log' =>
      (if h =? INVALID_HANDLE_VALUE then 0 else 1) + handles_open log'
  | SysCloseHandle _ :: log' => handles_open log' - 1
  | _ :: log' => handles_open log'
  end.

(** The operation the listener thread holds. *)
Definition held_op (c : System.consumer) : option addr :=
  match c with
  | System.InService _ op => op
  | System.Executing a => Some a
  | _ => None
  end.

(** The operations and the handles of the process are those of the operation
    the listener thread holds. *)
Definition inv_world (σ : System.t) : Prop :=
  match held_op (System.pc σ) with
  | Some a =>
      (exists o, World.ops (System.world σ) = {[ a := o ]} /\
                 PipeChannel.opened (Win32AttachOperation._pipe o) = true) /\
      handles_open (World.syslog (System.world σ)) = 1
  | None =>
      World.ops (System.world σ) = ∅ /\
      handles_open (World.syslog (System.world σ)) = 0
  end.

(** * Properties *)

(** ** C strings and the buffers of a request *)

Section CStrFacts.
Import CStr.

Lemma is_nul_NUL : is_nul NUL = true.
Proof. reflexivity. Qed.

Lemma c_str_idemp p : c_str (c_str p) = c_str p.
Proof.
  induction p as [|c p IH]; simpl; [done|].
  destruct (is_nul c) eqn:E; simpl; [done|]. by rewrite E, IH.
Qed.

Lemma c_str_replicate_NUL n rest : c_str (replicate n NUL ++ NUL :: rest) = [].
Proof. destruct n; reflexivity. Qed.

Lemma length_strncpy_chars src n : length (strncpy_chars src n) = n.
Proof.
  revert src; induction n as [|n IH]; intros src; simpl; [done|].
  destruct src as [|c src]; simpl.
  - by rewrite length_replicate.
  - destruct (is_nul c); simpl; [by rewrite length_replicate | by rewrite IH].
Qed.

(** What is read back from a buffer filled by [strncpy] and closed by a NUL:
    the source, cut at [n] characters. *)
Lemma c_str_strncpy_chars src n rest :
  c_str (strncpy_chars src n ++ NUL :: rest) = take n (c_str src).
Proof.
  revert src; induction n as [|n IH]; intros src; simpl.
  - by rewrite take_0.
  - destruct src as [|c src]; simpl.
    + done.
    + destruct (is_nul c) eqn:E; simpl; [done|]. by rewrite E, IH.
Qed.

Lemma strncpy_chars_terminator src n rest :
  (strlen src <= n)%nat ->
  (strncpy_chars src n ++ NUL :: rest) !! strlen src = Some NUL.
Proof.
  unfold strlen. revert src; induction n as [|n IH]; intros src Hle; simpl.
  - destruct (c_str src); simpl in *; [done | lia].
  - destruct src as [|c src]; simpl in *; [done|].
    destruct (is_nul c) eqn:E; simpl in *; [done|]. apply IH. lia.
Qed.

Lemma starts_with_prefix needle hay :
  starts_with needle hay = true <-> exists rest, hay = needle ++ rest.
Proof.
  revert hay; induction needle as [|a needle IH]; intros hay; simpl.
  - split; [eauto | done].
  - destruct hay as [|b hay].
    + split; [done | intros [rest Hr]; discriminate].
    + rewrite andb_true_iff, IH, Ascii.eqb_eq. split.
      * intros [-> [rest ->]]. eauto.
      * intros [rest Hr]. injection Hr as -> ->. eauto.
Qed.

Lemma strstr_from_start hay needle :
  strstr_from hay needle = Some O <-> starts_with needle hay = true.
Proof.
  destruct hay as [|b hay]; simpl; destruct (starts_with needle _); try done.
  destruct (strstr_from hay needle); simpl; split; congruence.
Qed.

End CStrFacts.

Section BufferFacts.
Context `{Bounds}.
Import CStr Win32AttachOperationRequest.

Lemma set_value_Some dst s n :
  length dst = S n ->
  set_value dst (Some s) (S n) = strncpy_chars s n ++ [NUL].
Proof.
  intros Hlen. unfold set_value, strncpy.
  replace (S n - 1)%nat with n by lia.
  assert (Hd : exists x, drop n dst = [x]).
  { destruct (drop n dst) as [|x [|y l]] eqn:E;
      apply (f_equal length) in E; rewrite length_drop in E; simpl in E;
      try lia; eauto. }
  destruct Hd as [x ->].
  rewrite insert_app_r_alt by (rewrite length_strncpy_chars; lia).
  rewrite length_strncpy_chars. by replace (n - n)%nat with O by lia.
Qed.

Lemma length_set_value dst str n :
  length dst = S n -> length (set_value dst str (S n)) = S n.
Proof.
  intros Hlen. destruct str as [s|].
  - rewrite set_value_Some by done. rewrite length_app, length_strncpy_chars. simpl; lia.
  - unfold set_value, strcpy_empty. by rewrite length_insert.
Qed.

(** A string that fits is stored whole. *)
Lemma c_str_set_value dst s n :
  length dst = S n -> (strlen s <= n)%nat ->
  c_str (set_value dst (Some s) (S n)) = c_str s.
Proof.
  intros Hlen Hfit. rewrite set_value_Some by done.
  rewrite c_str_strncpy_chars. apply take_ge. exact Hfit.
Qed.

(** In general the stored string is the given one cut at [n] characters. *)
Lemma c_str_set_value_take dst s n :
  length dst = S n ->
  c_str (set_value dst (Some s) (S n)) = take n (c_str s).
Proof.
  intros Hlen. rewrite set_value_Some by done. apply c_str_strncpy_chars.
Qed.

Lemma set_value_terminated dst s n :
  length dst = S n -> (strlen s <= n)%nat ->
  set_value dst (Some s) (S n) !! strlen s = Some NUL.
Proof.
  intros Hlen Hfit. rewrite set_value_Some by done.
  by apply strncpy_chars_terminator.
Qed.

(** The assertion of [set_value] holds for a string the checks of [enqueue]
    let through. *)
Lemma set_value_assertion s bound : (strlen s <= bound)%nat -> (strlen s < bound + 1)%nat.
Proof. lia. Qed.

End BufferFacts.

(** ** Lists in the store *)

Section ChainFacts.
Import Lists Win32AttachOperationRequest.
Implicit Types (h : gmap addr Win32AttachOperationRequest.t) (l : list addr).

(** A chain depends on the [_next] members of its own nodes only. *)
Lemma chain_ext h h' p l :
  chain h p l ->
  (forall x, x ∈ l -> _next <$> h' !! x = _next <$> h !! x) ->
  chain h' p l.
Proof.
  revert p; induction l as [|a l IH]; intros p Hc Hsame; simpl in *; [done|].
  destruct Hc as (-> & r & Hr & Hc). split; [done|].
  pose proof (Hsame a ltac:(left)) as Ha. rewrite Hr in Ha. simpl in Ha.
  destruct (h' !! a) as [r'|] eqn:Hr'; simpl in Ha; [|done].
  injection Ha as Ha. exists r'. split; [done|]. rewrite Ha.
  apply IH; [done|]. intros x Hx. apply Hsame. by right.
Qed.

Lemma chain_lookup h p l a : chain h p l -> a ∈ l -> is_Some (h !! a).
Proof.
  revert p; induction l as [|b l IH]; intros p Hc Ha; simpl in *.
  - by apply elem_of_nil in Ha.
  - destruct Hc as (-> & r & Hr & Hc).
    apply elem_of_cons in Ha as [->|Ha]; [by eexists | eauto].
Qed.

Lemma chain_snoc h h' p l t a ra :
  chain h p (l ++ [t]) ->
  (forall x, x ∈ l -> _next <$> h' !! x = _next <$> h !! x) ->
  (exists rt, h' !! t = Some rt /\ _next rt = Some a) ->
  h' !! a = Some ra -> _next ra = None ->
  chain h' p (l ++ [t; a]).
Proof.
  intros Hc Hsame (rt & Hrt & Hnt) Hra Hna.
  revert p Hc Hsame; induction l as [|x l IH]; intros p Hc Hsame; simpl in *.
  - destruct Hc as (-> & _). split; [done|]. exists rt. split; [done|].
    rewrite Hnt. split; [done|]. exists ra. by rewrite Hna.
  - destruct Hc as (-> & r & Hr & Hc). split; [done|].
    pose proof (Hsame x ltac:(left)) as Hx. rewrite Hr in Hx. simpl in Hx.
    destruct (h' !! x) as [r'|] eqn:Hr'; simpl in Hx; [|done].
    injection Hx as Hx. exists r'. split; [done|]. rewrite Hx.
    apply IH; [done|]. intros y Hy. apply Hsame. by right.
Qed.

Lemma chain_walk h p l fuel :
  chain h p l -> (length l <= fuel)%nat -> walk fuel h p = l.
Proof.
  revert p fuel; induction l as [|a l IH]; intros p fuel Hc Hlen; simpl in *.
  - subst p. by destruct fuel.
  - destruct Hc as (-> & r & Hr & Hc). destruct fuel as [|fuel]; [lia|].
    simpl. rewrite Hr. f_equal. apply IH; [done | lia].
Qed.

(** A list of distinct addresses that are exactly those of the store is as
    long as the store is large. *)
Lemma length_all_requests h l :
  NoDup l -> (forall a, a ∈ l <-> is_Some (h !! a)) -> length l = size h.
Proof.
  intros Hnd Hall. rewrite <- size_dom, <- (size_list_to_set (C := gset addr) l) by done.
  f_equal. apply set_eq. intros a.
  by rewrite elem_of_list_to_set, elem_of_dom.
Qed.

End ChainFacts.

(** ** The steps of enqueue and dequeue on a well-shaped state *)

Section ListenerFacts.
Context `{Bounds}.
Import Lists Win32AttachListener.

Lemma bind_Ok {A B} (a : A) (k : A -> outcome B) : (Ok a ≫= k) = k a.
Proof. reflexivity. Qed.

Lemma update_Some s a r m :
  requests s !! a = Some r ->
  update s (Some a) m = Ok (set_requests s (<[a := m r]> (requests s))).
Proof. intros Hr. unfold update. by rewrite Hr. Qed.

Lemma deref_Some s a r : requests s !! a = Some r -> deref s (Some a) = Ok r.
Proof. intros Hr. unfold deref. by rewrite Hr. Qed.

Lemma sized_set_next r p : sized r -> sized (Win32AttachOperationRequest.set_next r p).
Proof. done. Qed.

Lemma sized_set r ver pipename cmd arg0 arg1 arg2 :
  sized r -> sized (Win32AttachOperationRequest.set r ver pipename cmd arg0 arg1 arg2).
Proof.
  intros (Hn & Ha & Hall & Hp). unfold sized, Win32AttachOperationRequest.set; simpl.
  unfold Win32AttachOperationRequest.sizeof_name, Win32AttachOperationRequest.sizeof_arg,
    Win32AttachOperationRequest.sizeof_pipe in *.
  rewrite !Nat.add_1_r in *.
  split; [by apply length_set_value|].
  split; [by rewrite !length_alter|].
  split; [|by apply length_set_value].
  repeat (apply Forall_alter; [|intros b _ Hb; by apply length_set_value]). done.
Qed.

Lemma same_dom_is_Some (h h' : gmap addr Win32AttachOperationRequest.t) :
  dom h' = dom h -> forall a, is_Some (h' !! a) <-> is_Some (h !! a).
Proof. intros Hd a. by rewrite <- !elem_of_dom, Hd. Qed.

Lemma same_dom_size (h h' : gmap addr Win32AttachOperationRequest.t) :
  dom h' = dom h -> size h' = size h.
Proof. intros Hd. by rewrite <- !size_dom, Hd. Qed.

Lemma dom_insert_present (h : gmap addr Win32AttachOperationRequest.t) a r r' :
  h !! a = Some r -> dom (<[a := r']> h) = dom h.
Proof. intros Hr. apply dom_insert_lookup_L. by eexists. Qed.

Lemma enqueue_locked_full s queue ver cmd arg0 arg1 arg2 pipename :
  shape s [] queue [] ->
  enqueue_locked s ver cmd arg0 arg1 arg2 pipename = Ok (ATTACH_ERROR_RESOURCE, s).
Proof.
  intros [Hav _ _ _ _ _ _]. simpl in Hav. unfold enqueue_locked, available. by rewrite Hav.
Qed.

Lemma enqueue_locked_free s a free queue ver cmd arg0 arg1 arg2 pipename :
  shape s (a :: free) queue [] ->
  _enqueued_ops_semaphore s + 1 <= max_enqueued_operations ->
  exists r s',
    requests s !! a = Some r /\
    enqueue_locked s ver cmd arg0 arg1 arg2 pipename = Ok (0, s') /\
    shape s' free (queue ++ [a]) [] /\
    _enqueued_ops_semaphore s' = _enqueued_ops_semaphore s + 1 /\
    requests s' !! a =
      Some (Win32AttachOperationRequest.set (unlinked r) ver (Some pipename)
              (Some cmd) (Some arg0) (Some arg1) (Some arg2)) /\
    forall x, x <> a -> unlinked <$> requests s' !! x = unlinked <$> requests s !! x.
Proof.
  intros [Hav Hq Htq Hnd Hdom Hcnt Hsz] Hsem. simpl in Hav.
  destruct Hav as (Hav & r & Hr & Hfree).
  exists r. unfold enqueue_locked, available. rewrite Hav.
  rewrite (deref_Some _ _ _ Hr), bind_Ok.
  rewrite (update_Some _ _ r) by done. rewrite bind_Ok.
  unfold tail; simpl. rewrite Htq.
  rewrite app_nil_r in Hnd, Hdom.
  pose proof Hnd as Hnd0. simpl in Hnd0.
  apply NoDup_cons in Hnd0 as [Ha Hnd0]. apply not_elem_of_app in Ha as [Hafree Haq].
  apply NoDup_app in Hnd0 as (Hndf & Hfq & Hndq).
  destruct queue as [|tq queue _] using rev_ind.
  - simpl. rewrite lookup_insert_eq. simpl.
    unfold ReleaseSemaphore; simpl.
    destruct (Z.leb_spec (_enqueued_ops_semaphore s + 1) max_enqueued_operations); [|lia].
    simpl. eexists. split; [done|]. split; [done|].
    split; [|split; [done|split]]; simpl.
    + constructor; simpl.
      * apply (chain_ext _ _ _ _ Hfree). intros x Hx.
        rewrite !lookup_insert_ne by (intros ->; done). done.
      * split; [done|]. eexists. rewrite lookup_insert_eq. split; [done|]. done.
      * done.
      * apply NoDup_app. split; [done|].
        split; [|apply NoDup_singleton].
        intros x Hx Hxa. apply list_elem_of_singleton in Hxa as ->. done.
      * intros x.
        rewrite same_dom_is_Some; [|by rewrite insert_insert_eq; eapply dom_insert_present].
        rewrite <- Hdom. set_solver.
      * rewrite <- Hcnt. apply same_dom_size.
        rewrite insert_insert_eq. by eapply dom_insert_present.
      * intros x rx. rewrite insert_insert_eq.
        destruct (decide (x = a)) as [->|Hne].
        -- rewrite lookup_insert_eq. intros [= <-]. apply sized_set, sized_set_next. eauto.
        -- rewrite lookup_insert_ne by done. eauto.
    + by rewrite lookup_insert_eq.
    + intros x Hx. by rewrite !lookup_insert_ne.
  - rewrite last_snoc.
    assert (Htqa : tq <> a) by (intros Heq; subst tq; apply Haq; set_solver).
    destruct (chain_lookup _ _ _ tq Hq ltac:(set_solver)) as [rt Hrt].
    simpl. rewrite lookup_insert_ne by done. rewrite Hrt. simpl.
    rewrite lookup_insert_ne by done. rewrite lookup_insert_eq. simpl.
    unfold ReleaseSemaphore; simpl.
    destruct (Z.leb_spec (_enqueued_ops_semaphore s + 1) max_enqueued_operations); [|lia].
    simpl. eexists. split; [done|]. split; [done|].
    split; [|split; [done|split]]; simpl.
    + constructor; simpl.
      * apply (chain_ext _ _ _ _ Hfree). intros x Hx.
        assert (x <> a) by (intros Heq; by subst x).
        assert (x <> tq) by (intros Heq; subst x; apply (Hfq tq); set_solver).
        by rewrite !lookup_insert_ne.
      * rewrite <- (assoc_L (++)). simpl.
        eapply (chain_snoc _ _ _ _ _ _ _ Hq).
        -- intros x Hx. assert (x <> a) by (intros Heq; subst x; apply Haq; set_solver).
           assert (x <> tq).
           { intros Heq; subst x. apply NoDup_app in Hndq as (_ & Hn & _). apply (Hn tq); set_solver. }
           by rewrite !lookup_insert_ne.
        -- eexists. rewrite lookup_insert_ne by done. rewrite lookup_insert_eq. done.
        -- apply lookup_insert_eq.
        -- done.
      * by rewrite last_snoc.
      * rewrite app_nil_r. apply NoDup_app. split; [done|]. split.
        -- intros x Hx Hxq. specialize (Hfq x Hx). clear Hdom. set_solver.
        -- apply NoDup_app. split; [done|]. split; [|apply NoDup_singleton].
           intros x Hx Hxa. apply list_elem_of_singleton in Hxa. by subst x.
      * intros x.
        rewrite same_dom_is_Some; [rewrite <- Hdom; set_solver|].
        erewrite !dom_insert_present; [done|..].
        -- done.
        -- by rewrite lookup_insert_ne.
        -- rewrite lookup_insert_ne by done. apply lookup_insert_eq.
      * rewrite <- Hcnt. apply same_dom_size.
        erewrite !dom_insert_present; [done|..].
        -- done.
        -- by rewrite lookup_insert_ne.
        -- rewrite lookup_insert_ne by done. apply lookup_insert_eq.
      * intros x rx.
        destruct (decide (x = a)) as [->|Hne].
        -- rewrite lookup_insert_eq. intros [= <-]. apply sized_set, sized_set_next. eauto.
        -- rewrite lookup_insert_ne by done.
           destruct (decide (x = tq)) as [->|Hne'].
           ++ rewrite lookup_insert_eq. intros [= <-]. apply sized_set_next. eauto.
           ++ rewrite !lookup_insert_ne by done. eauto.
    + by rewrite lookup_insert_eq.
    + intros x Hx. rewrite lookup_insert_ne by done.
      destruct (decide (x = tq)) as [->|Hne'].
      * rewrite lookup_insert_eq, Hrt. done.
      * by rewrite !lookup_insert_ne.
Qed.

End ListenerFacts.

(** ** The operation a request is dispatched to *)

Section DispatchFacts.
Import Win32AttachListener.

Lemma world_update_Some ops log a o m :
  ops !! a = Some o ->
  World.update (World.mk ops log) (Some a) m = Ok (World.mk (<[a := m o]> ops) log).
Proof. intros Ho. unfold World.update, World.deref; simpl. by rewrite Ho. Qed.

Lemma world_open_pipe_Some ops log a o pipe_name write_only h :
  ops !! a = Some o ->
  World.open_pipe (World.mk ops log) (Some a) pipe_name write_only h =
    Ok (negb (h =? INVALID_HANDLE_VALUE),
        World.mk
          (<[a := Win32AttachOperation.mk (Win32AttachOperation.name o)
                    (Win32AttachOperation.args o) (PipeChannel.mk h)]> ops)
          (log ++ [SysCreateFile (CStr.c_str pipe_name) write_only h])).
Proof.
  intros Ho. unfold World.open_pipe, World.deref; simpl. rewrite Ho; simpl.
  unfold Win32AttachOperation.open_pipe, PipeChannel.open; simpl.
  by destruct (h =? INVALID_HANDLE_VALUE).
Qed.

Lemma world_read_request_Some ops log a o decoded :
  ops !! a = Some o ->
  World.read_request (World.mk ops log) (Some a) decoded =
    Ok (fst (Win32AttachOperation.read_request o decoded),
        World.mk (<[a := snd (Win32AttachOperation.read_request o decoded)]> ops) log).
Proof.
  intros Ho. unfold World.read_request, World.deref; simpl. rewrite Ho; simpl.
  by destruct (Win32AttachOperation.read_request o decoded).
Qed.

Lemma world_delete_op_Some ops log a o :
  ops !! a = Some o ->
  World.delete_op (World.mk ops log) (Some a) =
    Ok (World.mk (delete a ops)
          (snd (PipeChannel.close (Win32AttachOperation._pipe o) log))).
Proof.
  intros Ho. unfold World.delete_op; simpl. rewrite Ho.
  by destruct (PipeChannel.close _ _).
Qed.

Lemma fresh_op_absent (w : World.t) : World.ops w !! fresh (dom (World.ops w)) = None.
Proof. apply not_elem_of_dom, is_fresh. Qed.

Lemma dispatch_V1 r e w :
  Win32AttachOperationRequest.ver r = ATTACH_API_V1 ->
  length (Win32AttachOperationRequest._arg r) = arg_count_max ->
  created e <> INVALID_HANDLE_VALUE ->
  let a := fresh (dom (World.ops w)) in
  dispatch r e w =
    Ok (Some a,
        World.mk
          (<[a := Win32AttachOperation.mk
                    (CStr.c_str (Win32AttachOperationRequest.cmd r))
                    (CStr.c_str <$> Win32AttachOperationRequest._arg r)
                    (PipeChannel.mk (created e))]> (World.ops w))
          (World.syslog w ++
             [SysCreateFile (CStr.c_str (Win32AttachOperationRequest.pipe r)) true (created e)])).
Proof.
  intros Hv Hlen Hc a. unfold dispatch. rewrite Hv.
  unfold World.new_op. fold a.
  unfold arg_count_max, append_args.
  repeat (erewrite world_update_Some by apply lookup_insert_eq; rewrite bind_Ok).
  rewrite ?bind_Ok.
  erewrite world_open_pipe_Some by apply lookup_insert_eq. rewrite bind_Ok.
  apply Z.eqb_neq in Hc. rewrite Hc. simpl negb. cbv iota.
  rewrite !insert_insert_eq.
  unfold Win32AttachOperationRequest.arg.
  destruct (Win32AttachOperationRequest._arg r) as [|a0 [|a1 [|a2 [|]]]] eqn:Harg;
    try discriminate Hlen.
  reflexivity.
Qed.

(** A dispatch ends without a fault; an operation it hands out is new in the
    store, with its pipe open, and the other operations are as they were. *)
Lemma dispatch_ok r e w :
  exists op w',
    dispatch r e w = Ok (op, w') /\
    match op with
    | Some a =>
        World.ops w !! a = None /\
        (exists o, World.ops w' !! a = Some o /\
                   PipeChannel.opened (Win32AttachOperation._pipe o) = true) /\
        forall x, x <> a -> World.ops w' !! x = World.ops w !! x
    | None => World.ops w' = World.ops w
    end.
Proof.
  unfold dispatch. destruct (Win32AttachOperationRequest.ver r).
  - unfold World.new_op. set (a := fresh (dom (World.ops w))).
    unfold arg_count_max, append_args.
    repeat (erewrite world_update_Some by apply lookup_insert_eq; rewrite bind_Ok).
    rewrite ?bind_Ok.
  rewrite ?bind_Ok.
    erewrite world_open_pipe_Some by apply lookup_insert_eq. rewrite bind_Ok.
    rewrite !insert_insert_eq.
    destruct (created e =? INVALID_HANDLE_VALUE) eqn:Hc; simpl negb; cbv iota.
    + erewrite world_delete_op_Some by apply lookup_insert_eq. rewrite bind_Ok.
      do 2 eexists. split; [done|]. simpl.
      rewrite delete_insert_eq. apply delete_id, fresh_op_absent.
    + do 2 eexists. split; [done|]. simpl.
      split; [apply fresh_op_absent|]. split.
      * eexists. rewrite lookup_insert_eq. split; [done|]. simpl.
        unfold PipeChannel.opened; simpl. by rewrite Hc.
      * intros x Hx. by rewrite lookup_insert_ne.
  - unfold World.new_op. set (a := fresh (dom (World.ops w))).
    erewrite world_open_pipe_Some by apply lookup_insert_eq. rewrite bind_Ok.
    rewrite !insert_insert_eq.
    destruct (created e =? INVALID_HANDLE_VALUE) eqn:Hc; simpl negb; cbv iota.
    + erewrite world_delete_op_Some by apply lookup_insert_eq. rewrite bind_Ok.
      do 2 eexists. split; [done|]. simpl.
      rewrite delete_insert_eq. apply delete_id, fresh_op_absent.
    + erewrite world_read_request_Some by apply lookup_insert_eq. rewrite bind_Ok.
      rewrite !insert_insert_eq.
      destruct (decoded e) as [[n args]|]; simpl fst; simpl snd; simpl negb; cbv iota.
      * do 2 eexists. split; [done|]. simpl.
        split; [apply fresh_op_absent|]. split.
        -- eexists. rewrite lookup_insert_eq. split; [done|]. simpl.
           unfold PipeChannel.opened; simpl. by rewrite Hc.
        -- intros x Hx. by rewrite lookup_insert_ne.
      * erewrite world_delete_op_Some by apply lookup_insert_eq. rewrite bind_Ok.
        do 2 eexists. split; [done|]. simpl.
        rewrite delete_insert_eq. apply delete_id, fresh_op_absent.
  - do 2 eexists. split; [done|]. done.
Qed.

Lemma dispatch_V1_no_pipe r e w :
  Win32AttachOperationRequest.ver r = ATTACH_API_V1 ->
  created e = INVALID_HANDLE_VALUE ->
  dispatch r e w =
    Ok (None,
        World.mk (World.ops w)
          (World.syslog w ++
             [SysCreateFile (CStr.c_str (Win32AttachOperationRequest.pipe r)) true
                INVALID_HANDLE_VALUE])).
Proof.
  intros Hv Hc. unfold dispatch. rewrite Hv, Hc.
  unfold World.new_op. set (a := fresh (dom (World.ops w))).
  unfold arg_count_max, append_args.
  repeat (erewrite world_update_Some by apply lookup_insert_eq; rewrite bind_Ok).
  rewrite ?bind_Ok.
  erewrite world_open_pipe_Some by apply lookup_insert_eq. rewrite bind_Ok.
  rewrite !insert_insert_eq. simpl negb. cbv iota.
  erewrite world_delete_op_Some by apply lookup_insert_eq. rewrite bind_Ok.
  simpl. rewrite delete_insert_eq, (delete_id _ _ (fresh_op_absent w)). done.
Qed.

Lemma dispatch_V2 r e w :
  Win32AttachOperationRequest.ver r = ATTACH_API_V2 ->
  created e <> INVALID_HANDLE_VALUE ->
  let a := fresh (dom (World.ops w)) in
  let opening :=
    SysCreateFile (CStr.c_str (Win32AttachOperationRequest.pipe r)) false (created e) in
  dispatch r e w =
    match decoded e with
    | Some (n, args) =>
        Ok (Some a,
            World.mk
              (<[a := Win32AttachOperation.mk n args (PipeChannel.mk (created e))]>
                 (World.ops w))
              (World.syslog w ++ [opening]))
    | None =>
        Ok (None,
            World.mk (World.ops w)
              (World.syslog w ++ [opening; SysCloseHandle (created e)]))
    end.
Proof.
  intros Hv Hc a opening. unfold dispatch. rewrite Hv.
  unfold World.new_op. fold a.
  erewrite world_open_pipe_Some by apply lookup_insert_eq. rewrite bind_Ok.
  rewrite !insert_insert_eq.
  apply Z.eqb_neq in Hc. rewrite Hc. simpl negb. cbv iota.
  erewrite world_read_request_Some by apply lookup_insert_eq. rewrite bind_Ok.
  rewrite !insert_insert_eq.
  destruct (decoded e) as [[n args]|]; simpl fst; simpl snd; simpl negb; cbv iota.
  - done.
  - erewrite world_delete_op_Some by apply lookup_insert_eq. rewrite bind_Ok.
    simpl. unfold PipeChannel.close, PipeChannel.opened. simpl. rewrite Hc. simpl.
    rewrite delete_insert_eq, (delete_id _ _ (fresh_op_absent w)).
    by rewrite <- (assoc_L (++)).
Qed.

Lemma dispatch_V2_no_pipe r e w :
  Win32AttachOperationRequest.ver r = ATTACH_API_V2 ->
  created e = INVALID_HANDLE_VALUE ->
  dispatch r e w =
    Ok (None,
        World.mk (World.ops w)
          (World.syslog w ++
             [SysCreateFile (CStr.c_str (Win32AttachOperationRequest.pipe r)) false
                INVALID_HANDLE_VALUE])).
Proof.
  intros Hv Hc. unfold dispatch. rewrite Hv, Hc.
  unfold World.new_op. set (a := fresh (dom (World.ops w))).
  erewrite world_open_pipe_Some by apply lookup_insert_eq. rewrite bind_Ok.
  rewrite !insert_insert_eq. simpl negb. cbv iota.
  erewrite world_delete_op_Some by apply lookup_insert_eq. rewrite bind_Ok.
  simpl. rewrite delete_insert_eq, (delete_id _ _ (fresh_op_absent w)). done.
Qed.

Lemma dispatch_other r e w v :
  Win32AttachOperationRequest.ver r = ATTACH_API_other v ->
  dispatch r e w = Ok (None, w).
Proof. intros Hv. unfold dispatch. by rewrite Hv. Qed.

(** What decides whether a request gives an operation, and which operation
    it gives. *)
Lemma dispatch_outcome r e w :
  length (Win32AttachOperationRequest._arg r) = arg_count_max ->
  exists op w',
    dispatch r e w = Ok (op, w') /\
    (op = None <->
       created e = INVALID_HANDLE_VALUE \/
       (Win32AttachOperationRequest.ver r = ATTACH_API_V2 /\ decoded e = None) \/
       (exists v, Win32AttachOperationRequest.ver r = ATTACH_API_other v)) /\
    forall a, op = Some a ->
      exists o,
        World.ops w' !! a = Some o /\
        Win32AttachOperation._pipe o = PipeChannel.mk (created e) /\
        match Win32AttachOperationRequest.ver r with
        | ATTACH_API_V1 =>
            Win32AttachOperation.name o = CStr.c_str (Win32AttachOperationRequest.cmd r) /\
            Win32AttachOperation.args o = CStr.c_str <$> Win32AttachOperationRequest._arg r
        | ATTACH_API_V2 =>
            decoded e = Some (Win32AttachOperation.name o, Win32AttachOperation.args o)
        | ATTACH_API_other _ => False
        end.
Proof.
  intros Hargs.
  destruct (Win32AttachOperationRequest.ver r) as [| |v] eqn:Hv.
  - destruct (Z.eqb_spec (created e) INVALID_HANDLE_VALUE) as [Hc|Hc].
    + eexists _, _. split; [by apply dispatch_V1_no_pipe|].
      split; [split; [by left | done]|]. intros a Ha. discriminate Ha.
    + eexists _, _. split; [by apply dispatch_V1|]. split.
      * split; [intros Hn; discriminate Hn|].
        intros [?|[[? _]|[? ?]]]; [contradiction | discriminate | discriminate].
      * intros a Ha. injection Ha as <-. eexists. simpl.
        rewrite lookup_insert_eq. split; [reflexivity|]. done.
  - destruct (Z.eqb_spec (created e) INVALID_HANDLE_VALUE) as [Hc|Hc].
    + eexists _, _. split; [by apply dispatch_V2_no_pipe|].
      split; [split; [by left | done]|]. intros a Ha. discriminate Ha.
    + pose proof (dispatch_V2 r e w Hv Hc) as Hd. cbv zeta in Hd.
      destruct (decoded e) as [[n args]|] eqn:Hdec.
      * eexists _, _. split; [exact Hd|]. split.
        -- split; [intros Hn; discriminate Hn|].
           intros [?|[[_ ?]|[? ?]]]; [contradiction | discriminate | discriminate].
        -- intros a Ha. injection Ha as <-. eexists. simpl.
           rewrite lookup_insert_eq. split; [reflexivity|]. done.
      * eexists _, _. split; [exact Hd|].
        split; [split; [intros _; right; left; done | done]|].
        intros a Ha. discriminate Ha.
  - eexists _, _. split; [by apply (dispatch_other r e w v)|].
    split; [split; [intros _; right; right; by exists v | done]|].
    intros a Ha. discriminate Ha.
Qed.

End DispatchFacts.

(** ** The two halves of a turn of dequeue *)

Section TurnFacts.
Context `{Bounds}.
Import Lists Win32AttachListener.

Lemma dequeue_take_empty s e w :
  _head s = None -> dequeue_take s e w = Ok (s, w, None, None).
Proof. intros Hh. unfold dequeue_take, head. by rewrite Hh. Qed.

Lemma dequeue_take_shape s free a queue e w :
  shape s free (a :: queue) [] ->
  exists r s' op w',
    requests s !! a = Some r /\
    dequeue_take s e w = Ok (s', w', Some a, op) /\
    dispatch r e w = Ok (op, w') /\
    shape s' free queue [a] /\
    requests s' = requests s /\
    _enqueued_ops_semaphore s' = _enqueued_ops_semaphore s.
Proof.
  intros [Hav Hq Htl Hnd Hdom Hcnt Hsz]. simpl in Hq.
  destruct Hq as (Hhd & r & Hr & Hq).
  destruct (dispatch_ok r e w) as (op & w' & Hd & _).
  exists r. unfold dequeue_take, head. rewrite Hhd.
  rewrite (deref_Some _ _ _ Hr), bind_Ok. simpl.
  rewrite Hd, bind_Ok. unfold Win32AttachOperationRequest.next.
  eexists _, op, w'. split; [done|]. split; [done|]. split; [done|].
  assert (Hperm : free ++ queue ++ [a] ≡ₚ free ++ (a :: queue) ++ []).
  { rewrite app_nil_r. apply Permutation_app_head. symmetry. apply Permutation_cons_append. }
  destruct queue as [|b queue].
  - simpl in Hq. rewrite Hq. simpl. split; [|done].
    constructor; simpl; try done.
  - simpl in Hq. destruct Hq as (Hn & Hq). rewrite Hn. simpl. split; [|done].
    constructor; try done.
    + by rewrite Hperm.
    + intros x. simpl requests. by rewrite <- Hdom, Hperm.
Qed.

Lemma dequeue_put_back_null s : dequeue_put_back s None = Fault NullDeref.
Proof. reflexivity. Qed.

Lemma dequeue_put_back_shape s free queue a :
  shape s free queue [a] ->
  exists s',
    dequeue_put_back s (Some a) = Ok s' /\
    shape s' (a :: free) queue [] /\
    _enqueued_ops_semaphore s' = _enqueued_ops_semaphore s /\
    forall x, unlinked <$> requests s' !! x = unlinked <$> requests s !! x.
Proof.
  intros [Hav Hq Htl Hnd Hdom Hcnt Hsz].
  destruct (proj1 (Hdom a) ltac:(set_solver)) as [r Hr].
  unfold dequeue_put_back. rewrite (update_Some _ _ r) by done. rewrite bind_Ok.
  eexists. split; [done|]. simpl.
  assert (Haf : a ∉ free).
  { intros Hin. apply NoDup_app in Hnd as (_ & Hn & _). apply (Hn a Hin). set_solver. }
  assert (Haq : a ∉ queue).
  { intros Hin. apply NoDup_app in Hnd as (_ & _ & Hn).
    apply NoDup_app in Hn as (_ & Hn & _). apply (Hn a Hin). set_solver. }
  assert (Hperm : (a :: free) ++ queue ++ [] ≡ₚ free ++ queue ++ [a]).
  { rewrite app_nil_r. simpl. rewrite (assoc_L (++)). apply Permutation_cons_append. }
  split; [|split; [done|]].
  - constructor; simpl.
    + split; [done|]. eexists. rewrite lookup_insert_eq. split; [done|]. simpl.
      apply (chain_ext _ _ _ _ Hav). intros x Hx.
      rewrite lookup_insert_ne; [done|]. intros Heq; by subst x.
    + apply (chain_ext _ _ _ _ Hq). intros x Hx.
      rewrite lookup_insert_ne; [done|]. intros Heq; by subst x.
    + done.
    + by rewrite Hperm.
    + intros x. rewrite same_dom_is_Some by (by eapply dom_insert_present).
      rewrite <- Hdom. by rewrite Hperm.
    + rewrite <- Hcnt. apply same_dom_size. by eapply dom_insert_present.
    + intros x rx. destruct (decide (x = a)) as [->|Hne].
      * rewrite lookup_insert_eq. intros [= <-]. apply sized_set_next. eauto.
      * rewrite lookup_insert_ne by done. eauto.
  - intros x. destruct (decide (x = a)) as [->|Hne].
    + by rewrite lookup_insert_eq, Hr.
    + by rewrite lookup_insert_ne.
Qed.

End TurnFacts.

(** ** The state after init *)

Section InitFacts.
Context `{Bounds}.
Import Lists Win32AttachListener.

Lemma init_ok : init true true = Ok init_state.
Proof. reflexivity. Qed.

Lemma init_state_eq :
  let new_with p := Win32AttachOperationRequest.set_next Win32AttachOperationRequest.new p in
  init_state =
    mk (<[3%nat := new_with (Some 2%nat)]>
          (<[2%nat := new_with (Some 1%nat)]>
             (<[1%nat := new_with (Some 0%nat)]>
                (<[0%nat := new_with None]> ∅))))
       (Some 3%nat) None None 0.
Proof. vm_compute. reflexivity. Qed.

Lemma sized_raw : sized Win32AttachOperationRequest.raw.
Proof.
  unfold sized, Win32AttachOperationRequest.raw; simpl.
  rewrite !length_replicate. split; [done|]. split; [done|]. split; [|done].
  repeat constructor; apply length_replicate.
Qed.

Lemma sized_new : sized Win32AttachOperationRequest.new.
Proof. apply sized_set_next, sized_set, sized_raw. Qed.

Lemma init_state_shape : shape init_state [3; 2; 1; 0]%nat [] [].
Proof.
  rewrite init_state_eq. cbv zeta. constructor; simpl.
  - repeat (split; [done|]; eexists; split; [by simplify_map_eq|]; simpl). done.
  - done.
  - done.
  - repeat (apply NoDup_cons; split; [set_solver|]). apply NoDup_nil_2.
  - intros a. rewrite !lookup_insert_is_Some, lookup_empty, is_Some_alt.
    rewrite !elem_of_cons, elem_of_nil.
    destruct (decide (a = 3%nat)), (decide (a = 2%nat)), (decide (a = 1%nat)),
      (decide (a = 0%nat)); intuition lia.
  - rewrite !map_size_insert_None by (by simplify_map_eq). by rewrite map_size_empty.
  - intros a r Hr.
    repeat (apply lookup_insert_Some in Hr as [[_ <-]|[_ Hr]]; [apply sized_set_next, sized_new|]).
    by rewrite lookup_empty in Hr.
Qed.

End InitFacts.

(** ** The invariant of the process *)

Section InvariantFacts.
Context `{Bounds}.
Import Lists Win32AttachListener System.

Lemma pool_init_state : pool init_state = [3; 2; 1; 0]%nat.
Proof. vm_compute. reflexivity. Qed.

Lemma shape_lengths s free queue flight :
  shape s free queue flight ->
  (length free + length queue + length flight = 4)%nat.
Proof.
  intros [_ _ _ Hnd Hdom Hcnt _].
  pose proof (length_all_requests _ _ Hnd Hdom) as Hlen.
  rewrite Hcnt, !length_app in Hlen. vm_compute Z.to_nat in Hlen. lia.
Qed.

Lemma shape_pool s free queue flight : shape s free queue flight -> pool s = free.
Proof.
  intros Hs. unfold pool. apply chain_walk; [apply Hs|].
  rewrite (shape_count _ _ _ _ Hs). pose proof (shape_lengths _ _ _ _ Hs).
  vm_compute Z.to_nat. lia.
Qed.

Lemma shape_pending s free queue flight : shape s free queue flight -> pending s = queue.
Proof.
  intros Hs. unfold pending. apply chain_walk; [apply Hs|].
  rewrite (shape_count _ _ _ _ Hs). pose proof (shape_lengths _ _ _ _ Hs).
  vm_compute Z.to_nat. lia.
Qed.

Lemma shape_set_semaphore s n free queue flight :
  shape s free queue flight -> shape (set_semaphore s n) free queue flight.
Proof. intros [? ? ? ? ? ? ?]. by constructor. Qed.

Lemma enqueue_cases env s ver cmd arg0 arg1 arg2 pipename code s' :
  enqueue env s ver cmd arg0 arg1 arg2 pipename = Ok (code, s') ->
  (s' = s /\ (code = ATTACH_ERROR_DISABLED \/ code = ATTACH_ERROR_ILLEGALARG
              \/ code = ATTACH_ERROR_INTERNAL))
  \/ enqueue_locked s ver cmd arg0 arg1 arg2 pipename = Ok (code, s').
Proof.
  unfold enqueue.
  destruct (negb (fst (wait_for_listener _ _ _))); [intros [= <- <-]; left; auto|].
  destruct (illegal_arguments _ _ _ _ _); [intros [= <- <-]; left; auto|].
  destruct (negb (mutex_wait env =? WAIT_OBJECT_0)); [intros [= <- <-]; left; auto|].
  by right.
Qed.

Lemma inv_initial σ : initial σ -> inv σ.
Proof.
  intros (Hinit & Hw & Hpc). rewrite init_ok in Hinit. injection Hinit as Hinit.
  exists [3; 2; 1; 0]%nat, []. rewrite Hpc, <- Hinit. simpl.
  split; [apply init_state_shape|]. split; [by rewrite pool_init_state|].
  done.
Qed.

Lemma inv_step σ σ' : inv σ -> step σ σ' -> inv σ'.
Proof.
  intros (free & queue & Hs & Hperm & Hnn & Hsem & Hpc) Hstep.
  destruct Hstep as
    [σ env ver cmd arg0 arg1 arg2 pipename code s' Hfree Henq
    |σ res s' Hat Hpos Hwake
    |σ e s' w' request op Hat Hg1 Hg2 Htake
    |σ request op s' Hat Hput
    |σ a result result_stream writes w' Hat Hcomplete]; unfold inv; simpl.
  - (* enqueue *)
    assert (Hfl : in_flight (pc σ) = []) by (by destruct (pc σ)).
    rewrite Hfl in *.
    apply enqueue_cases in Henq as [[-> _]|Hlocked].
    { by exists free, queue. }
    destruct free as [|a free].
    + rewrite (enqueue_locked_full _ _ _ _ _ _ _ _ Hs) in Hlocked.
      injection Hlocked as _ <-. by exists [], queue.
    + pose proof (shape_lengths _ _ _ _ Hs) as Hlen. simpl in Hlen.
      assert (Hroom : _enqueued_ops_semaphore (listener σ) + 1 <= max_enqueued_operations).
      { unfold max_enqueued_operations. destruct (pc σ); simpl in Hsem; lia. }
      destruct (enqueue_locked_free _ _ _ _ ver cmd arg0 arg1 arg2 pipename Hs Hroom)
        as (r & s'' & Hr & Hlk & Hs'' & Hsem'' & _).
      rewrite Hlk in Hlocked. injection Hlocked as _ <-.
      exists free, (queue ++ [a]).
      split; [done|]. split.
      * rewrite <- Hperm. rewrite !app_nil_r. simpl.
        rewrite (assoc_L (++)). symmetry. apply Permutation_cons_append.
      * rewrite Hsem'', length_app. simpl. split; [lia|]. split; [lia|done].
  - (* the semaphore wait returns *)
    rewrite Hat in *. simpl in *.
    unfold dequeue_wake in Hwake.
    destruct (guarantee (negb (res =? WAIT_FAILED))) as [[]|]; [|done]. rewrite bind_Ok in Hwake.
    destruct (guarantee (res =? WAIT_OBJECT_0)) as [[]|]; [|done]. rewrite bind_Ok in Hwake.
    injection Hwake as <-.
    exists free, queue. split; [by apply shape_set_semaphore|]. split; [done|].
    simpl. split; [lia|]. split; [lia|done].
  - (* the head of the queue is taken *)
    rewrite Hat in *. simpl in *.
    destruct queue as [|a queue]; [simpl in Hsem|].
    { pose proof (shape_lengths _ _ _ _ Hs) as Hlen. simpl in Hlen.
      lia. }
    destruct (dequeue_take_shape _ _ _ _ e (world σ) Hs)
      as (r & s'' & op' & w'' & Hr & Htk & Hd & Hs'' & _ & Hsem'').
    rewrite Htk in Htake. injection Htake as <- <- <- <-.
    exists free, queue. simpl. split; [done|]. split.
    { rewrite <- Hperm. rewrite !app_nil_r. apply Permutation_app_head.
      symmetry. apply Permutation_cons_append. }
    rewrite Hsem''. simpl in Hsem. split; [done|]. split; [lia|].
    destruct op' as [x|]; [|done].
    destruct (dispatch_ok r e (world σ)) as (op2 & w2 & Hd2 & Hop).
    rewrite Hd in Hd2. injection Hd2 as <- <-. apply Hop.
  - (* the request goes back to the pool *)
    rewrite Hat in *. simpl in *.
    destruct request as [a|]; [|done]. simpl in *.
    destruct (dequeue_put_back_shape _ _ _ _ Hs) as (s'' & Hpb & Hs'' & Hsem'' & _).
    rewrite Hpb in Hput. injection Hput as <-.
    exists (a :: free), queue.
    assert (Hfl : in_flight match op with Some a0 => Executing a0 | None => AtSemaphore end = [])
      by (by destruct op).
    assert (Hwk : woken match op with Some a0 => Executing a0 | None => AtSemaphore end = 0)
      by (by destruct op).
    rewrite Hfl, Hwk, Hsem''. split; [done|]. split.
    { rewrite <- Hperm. rewrite !app_nil_r. simpl. rewrite (assoc_L (++)).
      apply Permutation_cons_append. }
    split; [done|]. split; [lia|]. by destruct op.
  - (* the operation is completed *)
    rewrite Hat in *. simpl in *.
    exists free, queue. done.
Qed.

Lemma inv_reachable σ : reachable σ -> inv σ.
Proof.
  induction 1 as [σ Hinit|σ σ' _ IH Hstep]; [by apply inv_initial | by eapply inv_step].
Qed.

(** When the listener thread is about to wait for the semaphore, the state
    is one from which the runs of [dequeue] below start. *)
Lemma reachable_at_semaphore σ :
  reachable σ -> pc σ = AtSemaphore ->
  exists free queue,
    shape (listener σ) free queue [] /\
    _enqueued_ops_semaphore (listener σ) = Z.of_nat (length queue).
Proof.
  intros Hreach Hat.
  destruct (inv_reachable _ Hreach) as (free & queue & Hs & _ & _ & Hsem & _).
  rewrite Hat in Hs, Hsem. simpl in Hs, Hsem.
  exists free, queue. split; [done | lia].
Qed.

End InvariantFacts.

(** ** Calls that pass the checks *)

Section CallFacts.
Context `{Bounds}.
Import Lists Win32AttachListener.
Local Arguments Win32AttachOperationRequest.set_value : simpl never.

Lemma illegal_arguments_false cmd arg0 arg1 arg2 pipename :
  illegal_arguments cmd arg0 arg1 arg2 pipename = false <->
  (CStr.strlen cmd <= name_length_max)%nat /\
  (CStr.strlen arg0 <= arg_length_max)%nat /\
  (CStr.strlen arg1 <= arg_length_max)%nat /\
  (CStr.strlen arg2 <= arg_length_max)%nat /\
  (CStr.strlen pipename <= Win32AttachOperation.pipe_name_max)%nat /\
  CStr.strstr pipename (CStr.lit "\\.\pipe\") = Some O.
Proof.
  unfold illegal_arguments.
  destruct (Nat.ltb_spec name_length_max (CStr.strlen cmd)); [split; [done|lia]|].
  destruct (Nat.ltb_spec arg_length_max (CStr.strlen arg0)); [split; [done|lia]|].
  destruct (Nat.ltb_spec arg_length_max (CStr.strlen arg1)); [split; [done|lia]|].
  destruct (Nat.ltb_spec arg_length_max (CStr.strlen arg2)); [split; [done|lia]|].
  destruct (Nat.ltb_spec Win32AttachOperation.pipe_name_max (CStr.strlen pipename));
    [split; [done|lia]|].
  case_bool_decide; simpl; [split; [auto 10|done]|].
  split; [done|]. intros (_ & _ & _ & _ & _ & ?). done.
Qed.

Lemma enqueue_call_locked env s c :
  ready env -> acceptable c ->
  enqueue_call env s c =
    enqueue_locked s (call_ver c) (call_cmd c) (call_arg0 c) (call_arg1 c) (call_arg2 c)
      (call_pipename c).
Proof.
  intros [Hup Hmutex] Hacc. unfold enqueue_call, enqueue.
  rewrite Hup, Hacc, Hmutex. reflexivity.
Qed.

Lemma stored_unlinked r : stored (unlinked r) = stored r.
Proof. reflexivity. Qed.

Lemma stored_same_unlinked (o o' : option Win32AttachOperationRequest.t) :
  unlinked <$> o' = unlinked <$> o -> stored <$> o' = stored <$> o.
Proof.
  intros Heq. destruct o as [r|], o' as [r'|]; simpl in *; try done.
  destruct r, r'. unfold unlinked, stored, Win32AttachOperationRequest.set_next in *.
  simpl in *. congruence.
Qed.

(** What [set] stores is what the call sent, when the strings fit. *)
Lemma stored_set r c :
  sized r -> acceptable c ->
  stored (Win32AttachOperationRequest.set (unlinked r) (call_ver c)
            (Some (call_pipename c)) (Some (call_cmd c)) (Some (call_arg0 c))
            (Some (call_arg1 c)) (Some (call_arg2 c))) = sent c.
Proof.
  intros (Hn & Ha & Hall & Hp) Hacc.
  apply illegal_arguments_false in Hacc as (Hc & H0 & H1 & H2 & Hpl & _).
  unfold stored, sent, Win32AttachOperationRequest.set; simpl.
  unfold Win32AttachOperationRequest.sizeof_name, Win32AttachOperationRequest.sizeof_arg,
    Win32AttachOperationRequest.sizeof_pipe in *.
  rewrite !Nat.add_1_r in *.
  destruct (Win32AttachOperationRequest._arg r) as [|b0 [|b1 [|b2 [|]]]]; try discriminate Ha.
  apply Forall_cons in Hall as [Hb0 Hall]. apply Forall_cons in Hall as [Hb1 Hall].
  apply Forall_cons in Hall as [Hb2 _].
  simpl. unfold Win32AttachOperationRequest.cmd, Win32AttachOperationRequest.pipe; simpl.
  by rewrite !c_str_set_value.
Qed.

End CallFacts.

(** ** Runs of enqueue and of dequeue *)

Section RunFacts.
Context `{Bounds}.
Import Lists Win32AttachListener.

Lemma enqueue_all_shape calls : forall s free queue,
  shape s free queue [] ->
  _enqueued_ops_semaphore s = Z.of_nat (length queue) ->
  (length calls <= length free)%nat ->
  Forall (fun ec => ready ec.1 /\ acceptable ec.2) calls ->
  exists s',
    enqueue_all calls s = Ok (replicate (length calls) 0, s') /\
    shape s' (drop (length calls) free) (queue ++ take (length calls) free) [] /\
    _enqueued_ops_semaphore s' = _enqueued_ops_semaphore s + Z.of_nat (length calls) /\
    Forall2 (fun a ec => stored <$> requests s' !! a = Some (sent ec.2))
      (take (length calls) free) calls /\
    forall x, x ∉ take (length calls) free ->
      stored <$> requests s' !! x = stored <$> requests s !! x.
Proof.
  induction calls as [|[env c] calls IH]; intros s free queue Hs Hsem Hlen Hok.
  - exists s. simpl. rewrite drop_0, take_0, app_nil_r.
    split; [done|]. split; [done|]. split; [lia|]. split; [constructor|done].
  - destruct free as [|a free]; [simpl in Hlen; lia|].
    apply Forall_cons in Hok as [[Hready Hacc] Hok]. simpl in Hready, Hacc.
    pose proof (shape_lengths _ _ _ _ Hs) as Hl. simpl in Hl.
    assert (Hroom : _enqueued_ops_semaphore s + 1 <= max_enqueued_operations).
    { unfold max_enqueued_operations. lia. }
    destruct (enqueue_locked_free _ _ _ _ (call_ver c) (call_cmd c) (call_arg0 c)
                (call_arg1 c) (call_arg2 c) (call_pipename c) Hs Hroom)
      as (r & s1 & Hr & Hlk & Hs1 & Hsem1 & Ha1 & Hother1).
    destruct (IH s1 free (queue ++ [a]) Hs1) as (s' & Hrun & Hs' & Hsem' & Hall & Hother').
    { rewrite Hsem1, Hsem, length_app. simpl. lia. }
    { simpl in Hlen. lia. }
    { done. }
    exists s'. simpl.
    rewrite (enqueue_call_locked _ _ _ Hready Hacc), Hlk, bind_Ok. simpl.
    rewrite Hrun, bind_Ok. simpl.
    split; [done|]. split; [by rewrite <- (assoc_L (++)) in Hs'|].
    split; [lia|].
    assert (Hnotin : a ∉ take (length calls) free).
    { intros Hin.
      pose proof (shape_nodup _ _ _ _ Hs) as Hnd. simpl in Hnd.
      apply NoDup_cons in Hnd as [Hn _]. apply Hn, elem_of_app. left.
      by apply (subseteq_take (length calls) free). }
    split.
    + constructor; [|done]. simpl.
      rewrite (Hother' a Hnotin), Ha1. simpl. f_equal.
      apply stored_set; [|done]. exact (shape_sized _ _ _ _ Hs a r Hr).
    + intros x Hx. apply not_elem_of_cons in Hx as [Hxa Hx].
      rewrite (Hother' x Hx). apply stored_same_unlinked. by apply Hother1.
Qed.

Lemma dequeue_turn_shape s free a queue e w :
  shape s free (a :: queue) [] -> calm e ->
  exists r s' op w',
    requests s !! a = Some r /\
    dequeue_turn s e w = Ok (s', w', Some a, op) /\
    dispatch r e w = Ok (op, w') /\
    shape s' (a :: free) queue [] /\
    _enqueued_ops_semaphore s' = _enqueued_ops_semaphore s - 1 /\
    forall x, unlinked <$> requests s' !! x = unlinked <$> requests s !! x.
Proof.
  intros Hs [Hw1 Hw2].
  unfold dequeue_turn, dequeue_wake. rewrite Hw1, Hw2. simpl.
  pose proof (shape_set_semaphore _ (_enqueued_ops_semaphore s - 1) _ _ _ Hs) as Hs0.
  destruct (dequeue_take_shape _ _ _ _ e w Hs0)
    as (r & s1 & op & w' & Hr & Htk & Hd & Hs1 & Hreq1 & Hsem1).
  destruct (dequeue_put_back_shape _ _ _ _ Hs1) as (s' & Hpb & Hs' & Hsem' & Hother).
  exists r, s', op, w'. rewrite Htk, bind_Ok. simpl. rewrite Hpb, bind_Ok.
  split; [done|]. split; [done|]. split; [done|]. split; [done|].
  split; [by rewrite Hsem', Hsem1|].
  intros x. by rewrite Hother, Hreq1.
Qed.

Lemma dequeue_turns_shape es : forall s w free queue,
  shape s free queue [] ->
  _enqueued_ops_semaphore s = Z.of_nat (length queue) ->
  (length es <= length queue)%nat ->
  Forall calm es ->
  exists served s' w',
    dequeue_turns es s w = Ok (served, s', w') /\
    served.*1.*1 = Some <$> take (length es) queue /\
    served.*1.*2 = (fun a => stored <$> requests s !! a) <$> take (length es) queue /\
    shape s' (reverse (take (length es) queue) ++ free) (drop (length es) queue) [] /\
    _enqueued_ops_semaphore s' = _enqueued_ops_semaphore s - Z.of_nat (length es) /\
    forall x, stored <$> requests s' !! x = stored <$> requests s !! x.
Proof.
  induction es as [|e es IH]; intros s w free queue Hs Hsem Hlen Hcalm.
  - exists [], s, w. simpl. rewrite ?take_0, ?drop_0. simpl.
    split; [done|]. split; [done|]. split; [done|]. split; [done|]. split; [lia|done].
  - destruct queue as [|a queue]; [simpl in Hlen; lia|].
    apply Forall_cons in Hcalm as [He Hcalm].
    destruct (dequeue_turn_shape _ _ _ _ e w Hs He)
      as (r & s1 & op & w1 & Hr & Hturn & Hd & Hs1 & Hsem1 & Hother1).
    destruct (IH s1 w1 (a :: free) queue Hs1) as (served & s' & w' & Hrun & Hp & Hh & Hs' & Hsem' & Hother').
    { rewrite Hsem1, Hsem. simpl length. lia. }
    { simpl in Hlen. lia. }
    { done. }
    simpl dequeue_turns.
    destruct (Z.leb_spec (_enqueued_ops_semaphore s) 0) as [Hle|_];
      [rewrite Hsem in Hle; simpl in Hle; lia|].
    rewrite Hturn, bind_Ok. simpl. rewrite Hrun, bind_Ok. simpl.
    eexists _, s', w'. split; [done|].
    cbn [length take drop]. rewrite !fmap_cons. cbn [fst snd mbind option_bind].
    split; [by rewrite Hp|]. split.
    { f_equal. rewrite Hh. apply list_fmap_ext. intros _ x _.
      apply stored_same_unlinked, Hother1. }
    split.
    { rewrite reverse_cons, <- (assoc_L (++)). exact Hs'. }
    split; [lia|].
    intros x. rewrite Hother'. apply stored_same_unlinked, Hother1.
Qed.

End RunFacts.

(** * The claims *)

Section Claims.
Context `{Bounds}.
Import Lists Win32AttachListener System.

Lemma enqueue_all_app calls1 calls2 s :
  enqueue_all (calls1 ++ calls2) s =
    '(codes1, s1) ← enqueue_all calls1 s;
    '(codes2, s2) ← enqueue_all calls2 s1;
    Ok (codes1 ++ codes2, s2).
Proof.
  revert s; induction calls1 as [|[env c] calls1 IH]; intros s; simpl.
  - by destruct (enqueue_all calls2 s) as [[codes2 s2]|].
  - destruct (enqueue_call env s c) as [[code s1]|]; [|done]. simpl.
    rewrite IH. destruct (enqueue_all calls1 s1) as [[codes1 s2]|]; [|done]. simpl.
    by destruct (enqueue_all calls2 s2) as [[codes2 s3]|].
Qed.

Lemma Forall2_fmap_eq {A B C} (f : A -> C) (g : B -> C) l k :
  Forall2 (fun a b => f a = g b) l k -> f <$> l = g <$> k.
Proof. induction 1; simpl; [done|]. by f_equal. Qed.

(** C1. For every sequence of at most four calls of enqueue that pass the
    readiness check and the checks of the parameters, made one after the
    other from the initial state, each call returns 0; the k-th call puts one
    slot at the tail of the queue; and the turns of dequeue that follow take
    the slots from the head in that same order, each holding what its call
    sent. *)
Theorem enqueue_dequeue_fifo (calls : list (enqueue_env * call))
    (turns : list dequeue_env) (w : World.t) :
  (length calls <= Z.to_nat max_enqueued_operations)%nat ->
  Forall (fun ec => ready ec.1 /\ acceptable ec.2) calls ->
  length turns = length calls ->
  Forall calm turns ->
  exists s slots served s' w',
    enqueue_all calls init_state = Ok (replicate (length calls) 0, s) /\
    pending s = slots /\
    length slots = length calls /\
    (forall k, (k <= length calls)%nat ->
       exists sk, enqueue_all (take k calls) init_state = Ok (replicate k 0, sk) /\
                  pending sk = take k slots) /\
    dequeue_turns turns s w = Ok (served, s', w') /\
    served.*1.*1 = Some <$> slots /\
    served.*1.*2 = (fun ec => Some (sent ec.2)) <$> calls /\
    pending s' = [].
Proof.
  intros Hlen Hok Hturns Hcalm.
  pose proof init_state_shape as Hs0.
  assert (Hfree : (length calls <= length [3; 2; 1; 0]%nat)%nat) by exact Hlen.
  destruct (enqueue_all_shape calls _ _ _ Hs0 eq_refl Hfree Hok)
    as (s & Hrun & Hs & Hsem & Hall & _).
  simpl app in Hs.
  match type of Hs with shape _ _ ?q _ => set (slots := q) in * end.
  assert (Hslots : length slots = length calls).
  { unfold slots. rewrite length_take. simpl. simpl in Hfree. lia. }
  destruct (dequeue_turns_shape turns s w _ _ Hs)
    as (served & s' & w' & Hdq & Hp & Hh & Hs' & _).
  { rewrite Hsem, Hslots. reflexivity. }
  { rewrite Hslots. lia. }
  { done. }
  rewrite Hturns, <- Hslots, firstn_all in Hp, Hh. rewrite Hturns, <- Hslots, drop_all in Hs'.
  exists s, slots, served, s', w'.
  split; [done|]. split; [by apply (shape_pending _ _ _ _ Hs)|]. split; [done|].
  split.
  { intros k Hk.
    assert (Hok' : Forall (fun ec => ready ec.1 /\ acceptable ec.2) (take k calls))
      by (by apply Forall_take).
    assert (Hlk : length (take k calls) = k) by (rewrite length_take; lia).
    destruct (enqueue_all_shape (take k calls) _ _ _ Hs0 eq_refl) as (sk & Hrunk & Hsk & _);
      [rewrite Hlk; simpl; simpl in Hfree; lia | done |].
    rewrite Hlk in *. exists sk. split; [done|].
    rewrite (shape_pending _ _ _ _ Hsk). simpl app. unfold slots.
    rewrite take_take. f_equal. lia. }
  split; [done|]. split; [done|]. split.
  - rewrite Hh. by apply Forall2_fmap_eq.
  - by apply (shape_pending _ _ _ _ Hs').
Qed.

(** C2. In every state the process reaches, each of the four preallocated
    requests is in exactly one of the free pool, the pending queue and the
    hands of the turn of dequeue under way; whenever no turn holds the mutex
    the pool and the queue together are all four; and the queue never holds
    more than four. *)
Theorem slots_in_one_place (σ : System.t) :
  reachable σ ->
  let s := listener σ in
  NoDup (pool s ++ pending s ++ in_flight (pc σ)) /\
  pool s ++ pending s ++ in_flight (pc σ) ≡ₚ pool init_state /\
  length (pool init_state) = Z.to_nat max_enqueued_operations /\
  (mutex_free (pc σ) = true -> pool s ++ pending s ≡ₚ pool init_state) /\
  (length (pending s) <= Z.to_nat max_enqueued_operations)%nat.
Proof.
  intros Hreach s.
  destruct (inv_reachable _ Hreach) as (free & queue & Hs & Hperm & _).
  fold s in Hs. rewrite (shape_pool _ _ _ _ Hs), (shape_pending _ _ _ _ Hs).
  split; [apply Hs|]. split; [done|].
  split; [by rewrite pool_init_state|]. split.
  - intros Hfree. rewrite <- Hperm.
    assert (Hfl : in_flight (pc σ) = []) by (by destruct (pc σ)).
    by rewrite Hfl, app_nil_r.
  - pose proof (shape_lengths _ _ _ _ Hs). vm_compute Z.to_nat. lia.
Qed.

(** C3. From the initial state, of five calls of enqueue that pass the
    checks the first four return 0 and the fifth returns 101; a call that
    finds the pool empty returns 101 at once and changes nothing; and after
    one turn of dequeue, whatever it produces, the pool holds one request and
    the next call returns 0. *)
Theorem pool_exhaustion_and_recovery (calls : list (enqueue_env * call))
    (e : dequeue_env) (w : World.t) (env : enqueue_env) (c : call) :
  length calls = 5%nat ->
  Forall (fun ec => ready ec.1 /\ acceptable ec.2) calls ->
  calm e -> ready env -> acceptable c ->
  exists s,
    enqueue_all calls init_state = Ok ([0; 0; 0; 0; ATTACH_ERROR_RESOURCE], s) /\
    pool s = [] /\
    enqueue_call env s c = Ok (ATTACH_ERROR_RESOURCE, s) /\
    exists s1 w1 request op s2,
      dequeue_turn s e w = Ok (s1, w1, request, op) /\
      length (pool s1) = 1%nat /\
      enqueue_call env s1 c = Ok (0, s2).
Proof.
  intros Hlen Hok He Henv Hc.
  destruct calls as [|c1 [|c2 [|c3 [|c4 [|[env5 c5] [|]]]]]]; try discriminate Hlen.
  change [c1; c2; c3; c4; (env5, c5)] with ([c1; c2; c3; c4] ++ [(env5, c5)]) in *.
  apply Forall_app in Hok as [Hok4 Hok5].
  apply Forall_singleton in Hok5 as [Hr5 Ha5]. simpl in Hr5, Ha5.
  destruct (enqueue_all_shape [c1; c2; c3; c4] _ _ _ init_state_shape eq_refl)
    as (s & Hrun & Hs & Hsem & _); [simpl; lia | done |].
  simpl in Hs, Hsem.
  assert (Hfull : forall env' c', ready env' -> acceptable c' ->
            enqueue_call env' s c' = Ok (ATTACH_ERROR_RESOURCE, s)).
  { intros env' c' Hr' Ha'. rewrite (enqueue_call_locked _ _ _ Hr' Ha').
    by apply (enqueue_locked_full _ _ _ _ _ _ _ _ Hs). }
  exists s. split.
  { rewrite enqueue_all_app, Hrun, bind_Ok. simpl.
    by rewrite (Hfull _ _ Hr5 Ha5). }
  split; [by apply (shape_pool _ _ _ _ Hs)|]. split; [by apply Hfull|].
  destruct (dequeue_turn_shape _ _ _ _ e w Hs He)
    as (r & s1 & op & w1 & Hr & Hturn & _ & Hs1 & Hsem1 & _).
  assert (Hroom : _enqueued_ops_semaphore s1 + 1 <= max_enqueued_operations).
  { rewrite Hsem1, Hsem. vm_compute. discriminate. }
  destruct (enqueue_locked_free _ _ _ _ (call_ver c) (call_cmd c) (call_arg0 c)
              (call_arg1 c) (call_arg2 c) (call_pipename c) Hs1 Hroom)
    as (r1 & s2 & _ & Hlk & _).
  exists s1, w1, (Some 3%nat), op, s2.
  split; [done|]. split; [by rewrite (shape_pool _ _ _ _ Hs1)|].
  by rewrite (enqueue_call_locked _ _ _ Henv Hc).
Qed.

Lemma strstr_prefix pipename :
  CStr.strstr pipename (CStr.lit "\\.\pipe\") = Some O <->
  exists rest, CStr.c_str pipename = CStr.lit "\\.\pipe\" ++ rest.
Proof.
  unfold CStr.strstr. rewrite strstr_from_start.
  change (CStr.c_str (CStr.lit "\\.\pipe\")) with (CStr.lit "\\.\pipe\").
  apply starts_with_prefix.
Qed.

(** C4. Once the readiness check has passed, a call of enqueue whose command
    is longer than the bound for names, or one of whose arguments is longer
    than the bound for arguments, or whose pipe name is longer than the bound
    for pipe names or does not begin with the pipe prefix, returns 102 and
    leaves the state (pool, queue and semaphore) as it was. *)
Theorem illegal_argument_rejected (env : enqueue_env) (s : Win32AttachListener.t)
    (ver : AttachAPIVersion) (cmd arg0 arg1 arg2 pipename : list ascii) :
  fst (wait_for_listener (is_initialized env) 0 []) = true ->
  (name_length_max < CStr.strlen cmd)%nat \/
  (arg_length_max < CStr.strlen arg0)%nat \/
  (arg_length_max < CStr.strlen arg1)%nat \/
  (arg_length_max < CStr.strlen arg2)%nat \/
  (Win32AttachOperation.pipe_name_max < CStr.strlen pipename)%nat \/
  ~ (exists rest, CStr.c_str pipename = CStr.lit "\\.\pipe\" ++ rest) ->
  enqueue env s ver cmd arg0 arg1 arg2 pipename = Ok (ATTACH_ERROR_ILLEGALARG, s).
Proof.
  intros Hup Hbad. unfold enqueue. rewrite Hup. simpl.
  destruct (illegal_arguments cmd arg0 arg1 arg2 pipename) eqn:Hill; [done|].
  apply illegal_arguments_false in Hill as (? & ? & ? & ? & ? & Hpre).
  apply strstr_prefix in Hpre.
  exfalso. destruct Hbad as [?|[?|[?|[?|[?|?]]]]]; try lia. done.
Qed.

(** C5. A run of dequeue from a state with the lists well shaped and the
    semaphore at the length of the queue never ends in a fault.  It is a
    run of turns, one for each request taken from the head of the queue in
    order; every request taken is back in the pool at the end.  A turn
    produces no operation exactly when the pipe of its request did not
    open, or the request is of version V2 and could not be read from the
    pipe, or its version is neither V1 nor V2.  All turns but the last
    produced no operation; and when dequeue returns, the last turn produced
    the operation returned, which is live, has its pipe open on the handle
    that turn obtained, and carries the command and the arguments of the
    request (V1) or those read from the pipe (V2).  Otherwise every request
    was discarded and the thread waits for the semaphore (or the
    environments given ran out first). *)
Theorem dequeue_returns_usable_operation (script : list dequeue_env)
    (s : Win32AttachListener.t) (w : World.t) (free queue : list addr) :
  shape s free queue [] ->
  _enqueued_ops_semaphore s = Z.of_nat (length queue) ->
  Forall calm script ->
  exists stop s' w' served,
    dequeue script s w = Ok (stop, s', w') /\
    dequeue_turns (take (length served) script) s w = Ok (served, s', w') /\
    served.*1.*1 = Some <$> take (length served) queue /\
    pool s' = reverse (take (length served) queue) ++ free /\
    pending s' = drop (length served) queue /\
    Forall2
      (fun (e : dequeue_env) (sv : service) =>
         exists ver cmd args pipe,
           sv.1.2 = Some (ver, cmd, args, pipe) /\
           (sv.2 = None <->
              created e = INVALID_HANDLE_VALUE \/
              (ver = ATTACH_API_V2 /\ decoded e = None) \/
              (exists v, ver = ATTACH_API_other v)))
      (take (length served) script) served /\
    match stop with
    | Returned a =>
        served.*2 = replicate (length served - 1) None ++ [Some a] /\
        exists o, World.ops w' !! a = Some o /\
                  PipeChannel.opened (Win32AttachOperation._pipe o) = true /\
                  exists e request ver cmd args pipe,
                    last (take (length served) script) = Some e /\
                    last served = Some (request, Some (ver, cmd, args, pipe), Some a) /\
                    created e <> INVALID_HANDLE_VALUE /\
                    Win32AttachOperation._pipe o = PipeChannel.mk (created e) /\
                    match ver with
                    | ATTACH_API_V1 =>
                        Win32AttachOperation.name o = cmd /\
                        Win32AttachOperation.args o = args
                    | ATTACH_API_V2 =>
                        decoded e =
                          Some (Win32AttachOperation.name o, Win32AttachOperation.args o)
                    | ATTACH_API_other _ => False
                    end
    | Blocked =>
        served.*2 = replicate (length served) None /\
        length served = length queue
    | ScriptEnded =>
        served.*2 = replicate (length served) None /\
        length served = length script /\ (length script < length queue)%nat
    end.
Proof.
  revert s w free queue.
  induction script as [|e script IH]; intros s w free queue Hs Hsem Hcalm.
  - destruct queue as [|a queue].
    + exists Blocked, s, w, []. simpl. rewrite Hsem. simpl.
      rewrite (shape_pool _ _ _ _ Hs), (shape_pending _ _ _ _ Hs).
      repeat split; try done; constructor.
    + exists ScriptEnded, s, w, []. simpl.
      destruct (Z.leb_spec (_enqueued_ops_semaphore s) 0) as [Hle|_];
        [rewrite Hsem in Hle; simpl in Hle; lia|].
      rewrite (shape_pool _ _ _ _ Hs), (shape_pending _ _ _ _ Hs).
      repeat split; try done; try lia; constructor.
  - destruct queue as [|a queue].
    + exists Blocked, s, w, []. simpl. rewrite Hsem. simpl.
      rewrite (shape_pool _ _ _ _ Hs), (shape_pending _ _ _ _ Hs).
      repeat split; try done; constructor.
    + apply Forall_cons in Hcalm as [He Hcalm].
      destruct (dequeue_turn_shape _ _ _ _ e w Hs He)
        as (r & s1 & op & w1 & Hr & Hturn & Hd & Hs1 & Hsem1 & Hother1).
      assert (Hpos : (_enqueued_ops_semaphore s <=? 0) = false).
      { apply Z.leb_gt. rewrite Hsem. simpl length. lia. }
      pose proof (shape_sized _ _ _ _ Hs a r Hr) as (_ & Hargs & _).
      destruct (dispatch_outcome r e w Hargs) as (op2 & w2 & Hd2 & Hnone & Hsome).
      rewrite Hd in Hd2. injection Hd2 as <- <-.
      assert (Hheld : stored <$> requests s !! a = Some (stored r)) by (by rewrite Hr).
      assert (Hthis :
        exists ver cmd args pipe,
          (Some a, stored <$> requests s !! a, op).1.2 = Some (ver, cmd, args, pipe) /\
          ((Some a, stored <$> requests s !! a, op).2 = None <->
             created e = INVALID_HANDLE_VALUE \/
             (ver = ATTACH_API_V2 /\ decoded e = None) \/
             (exists v, ver = ATTACH_API_other v))).
      { eexists _, _, _, _. split; [exact Hheld|]. exact Hnone. }
      destruct op as [x|].
      * exists (Returned x), s1, w1, [(Some a, stored <$> requests s !! a, Some x)].
        simpl. rewrite Hpos, Hturn. simpl.
        rewrite (shape_pool _ _ _ _ Hs1), (shape_pending _ _ _ _ Hs1).
        rewrite ?take_0, ?drop_0.
        split; [done|]. split; [done|]. split; [done|]. split; [done|].
        split; [done|]. split; [by repeat constructor|]. split; [done|].
        destruct (Hsome x eq_refl) as (o & Ho & Hpipe & Hcontent).
        assert (Hc : created e <> INVALID_HANDLE_VALUE).
        { intros Hc. assert (Hx : Some x = None) by (apply Hnone; by left).
          discriminate Hx. }
        exists o. split; [done|]. split.
        { rewrite Hpipe. unfold PipeChannel.opened. simpl.
          apply Z.eqb_neq in Hc. by rewrite Hc. }
        eexists e, (Some a), _, _, _, _.
        split; [done|]. split; [by rewrite Hheld|]. split; [done|]. split; [done|].
        exact Hcontent.
      * destruct (IH s1 w1 (a :: free) queue Hs1) as
          (stop & s' & w' & served & Hdq & Hturns & Hp & Hpool & Hpend & Hall & Hstop).
        { rewrite Hsem1, Hsem. simpl length. lia. }
        { done. }
        exists stop, s', w', ((Some a, stored <$> requests s !! a, None) :: served).
        simpl. rewrite Hpos, Hturn. simpl.
        rewrite Hturns. simpl.
        split; [done|]. split; [done|]. split; [f_equal; exact Hp|].
        split; [by rewrite Hpool, reverse_cons, <- (assoc_L (++))|].
        split; [done|].
        split; [by apply Forall2_cons|].
        destruct stop as [x| |].
        -- destruct Hstop as (Hops & o & Ho & Hopen & Hlast).
           destruct Hlast as (e' & rq & ver & cmd & args & pipe & Hle & Hls & Hrest).
           split.
           { etransitivity; [exact (f_equal (cons None) Hops)|].
             rewrite Nat.sub_0_r.
             destruct served as [|sv served]; [by destruct (replicate _ _)|].
             simpl. by rewrite Nat.sub_0_r. }
           exists o. split; [done|]. split; [done|].
           exists e', rq, ver, cmd, args, pipe.
           split; [by rewrite last_cons, Hle|].
           split; [by rewrite last_cons, Hls|]. exact Hrest.
        -- destruct Hstop as [Hops Hlen]. split; [|by rewrite Hlen].
           exact (f_equal (cons None) Hops).
        -- destruct Hstop as (Hops & Hlen & Hlt).
           split; [exact (f_equal (cons None) Hops)|]. split; [by rewrite Hlen|lia].
Qed.

(** C6 (amended). In every state the process reaches the count of the
    semaphore is between 0 and 4, and the count plus the wakeup the listener
    thread has taken and not yet served (1 between its wait for the
    semaphore and its taking the head of the queue, 0 otherwise) is the
    length of the queue.  A call of enqueue made while the mutex is free ends
    without a fault and raises the count by one exactly when it returns 0.
    When the listener thread takes the mutex after its wait, the head of the
    queue is not null; and the request it then puts back on the available
    list is not null, so that step does not fault. *)
Theorem semaphore_tracks_queue (σ : System.t) :
  reachable σ ->
  let s := listener σ in
  0 <= _enqueued_ops_semaphore s <= max_enqueued_operations /\
  _enqueued_ops_semaphore s + woken (pc σ) = Z.of_nat (length (pending s)) /\
  (mutex_free (pc σ) = true ->
   forall env ver cmd arg0 arg1 arg2 pipename,
   exists code s',
     enqueue env s ver cmd arg0 arg1 arg2 pipename = Ok (code, s') /\
     _enqueued_ops_semaphore s' =
       _enqueued_ops_semaphore s + (if code =? 0 then 1 else 0)) /\
  (pc σ = AtMutex ->
   forall e, exists s' w' a op,
     dequeue_take s e (world σ) = Ok (s', w', Some a, op)) /\
  (forall request op, pc σ = InService request op ->
   request <> None /\ exists s', dequeue_put_back s request = Ok s').
Proof.
  intros Hreach s.
  destruct (inv_reachable _ Hreach) as (free & queue & Hs & Hperm & Hnn & Hsem & Hpc).
  fold s in Hs, Hnn, Hsem.
  pose proof (shape_lengths _ _ _ _ Hs) as Hlen.
  rewrite (shape_pending _ _ _ _ Hs).
  assert (Hwk : 0 <= woken (pc σ)) by (by destruct (pc σ)).
  split; [unfold max_enqueued_operations; lia|]. split; [done|]. split; [|split].
  - intros Hfree env ver cmd arg0 arg1 arg2 pipename.
    assert (Hfl : in_flight (pc σ) = []) by (by destruct (pc σ)).
    rewrite Hfl in Hs, Hlen. unfold enqueue.
    destruct (negb (fst (wait_for_listener _ _ _))); [eexists _, s; split; [done|simpl; lia]|].
    destruct (illegal_arguments _ _ _ _ _); [eexists _, s; split; [done|simpl; lia]|].
    destruct (negb (mutex_wait env =? WAIT_OBJECT_0)); [eexists _, s; split; [done|simpl; lia]|].
    destruct free as [|a free].
    + rewrite (enqueue_locked_full _ _ _ _ _ _ _ _ Hs).
      eexists _, s; split; [done|simpl; lia].
    + simpl in Hlen.
      assert (Hroom : _enqueued_ops_semaphore s + 1 <= max_enqueued_operations).
      { unfold max_enqueued_operations. lia. }
      destruct (enqueue_locked_free _ _ _ _ ver cmd arg0 arg1 arg2 pipename Hs Hroom)
        as (r & s' & _ & Hlk & _ & Hsem' & _).
      rewrite Hlk. by exists 0, s'.
  - intros Hat e. rewrite Hat in *. simpl in *.
    destruct queue as [|a queue]; [simpl in Hsem; lia|].
    destruct (dequeue_take_shape _ _ _ _ e (world σ) Hs)
      as (r & s' & op & w' & _ & Htk & _).
    by exists s', w', a, op.
  - intros request op Hat. rewrite Hat in *. simpl in *.
    destruct request as [a|]; [|done]. split; [done|].
    destruct (dequeue_put_back_shape _ _ _ _ Hs) as (s' & Hpb & _).
    by exists s'.
Qed.

Lemma wait_for_listener_never :
  wait_for_listener (fun _ => false) 0 [] = (false, replicate 11 1000).
Proof. by vm_compute. Qed.

(** C7.  When the listener never comes up, enqueue calls [Sleep(1000)]
    eleven times, not ten, before it returns 100; and a listener that comes
    up only after the tenth second is still waited for.  A listener found up
    lets the call go on to the checks of the parameters. *)
Theorem readiness_wait_sleeps_eleven_times (mutex : Z) (s : Win32AttachListener.t)
    (ver : AttachAPIVersion) (cmd arg0 arg1 arg2 pipename : list ascii) :
  wait_for_listener (fun _ => false) 0 [] = (false, replicate 11 1000) /\
  enqueue (mk_enqueue_env (fun _ => false) mutex) s ver cmd arg0 arg1 arg2 pipename
    = Ok (ATTACH_ERROR_DISABLED, s) /\
  wait_for_listener (fun k => (10 <=? k)%nat) 0 [] = (true, replicate 10 1000) /\
  wait_for_listener (fun _ => true) 0 [] = (true, []).
Proof.
  split; [by vm_compute|]. split; [|split; by vm_compute].
  unfold enqueue. simpl is_initialized. by rewrite wait_for_listener_never.
Qed.

(** A V1 request that is alone in the queue comes back from dequeue as an
    operation that carries the strings of the slot. *)
Lemma v1_request_round_trip env s a free c e w :
  shape s (a :: free) [] [] ->
  _enqueued_ops_semaphore s = 0 ->
  ready env -> acceptable c -> call_ver c = ATTACH_API_V1 ->
  calm e -> created e <> INVALID_HANDLE_VALUE ->
  exists s1 r s2 w2 op o,
    enqueue_call env s c = Ok (0, s1) /\
    requests s1 !! a = Some r /\
    stored r = sent c /\
    dequeue [e] s1 w = Ok (Returned op, s2, w2) /\
    World.ops w2 !! op = Some o /\
    Win32AttachOperation.name o = CStr.c_str (Win32AttachOperationRequest.cmd r) /\
    Win32AttachOperation.args o = CStr.c_str <$> Win32AttachOperationRequest._arg r.
Proof.
  intros Hs Hsem Henv Hacc Hver He Hcreated.
  assert (Hroom : _enqueued_ops_semaphore s + 1 <= max_enqueued_operations).
  { rewrite Hsem. vm_compute. discriminate. }
  destruct (enqueue_locked_free _ _ _ _ (call_ver c) (call_cmd c) (call_arg0 c)
              (call_arg1 c) (call_arg2 c) (call_pipename c) Hs Hroom)
    as (r0 & s1 & Hr0 & Hlk & Hs1 & Hsem1 & Ha1 & _).
  simpl app in Hs1.
  destruct (dequeue_turn_shape _ _ _ _ e w Hs1 He)
    as (r & s2 & op & w2 & Hr & Hturn & Hd & _).
  assert (Hstored : stored r = sent c).
  { rewrite Ha1 in Hr. injection Hr as <-. apply stored_set; [|done].
    exact (shape_sized _ _ _ _ Hs a r0 Hr0). }
  assert (Hv : Win32AttachOperationRequest.ver r = ATTACH_API_V1).
  { rewrite <- Hver. unfold stored, sent in Hstored. by injection Hstored. }
  pose proof (shape_sized _ _ _ _ Hs1 a r Hr) as (_ & Hargs & _).
  rewrite (dispatch_V1 r e w Hv Hargs Hcreated) in Hd. cbv zeta in Hd.
  injection Hd as <- <-.
  eexists s1, r, s2, _, _, _.
  split; [by rewrite (enqueue_call_locked _ _ _ Henv Hacc)|].
  split; [done|]. split; [done|]. split.
  { simpl. rewrite Hsem1, Hsem. simpl. rewrite Hturn. simpl. reflexivity. }
  simpl. rewrite lookup_insert_eq. done.
Qed.

(** C8. A V1 call of enqueue with command C and arguments a, empty, empty,
    made when the queue is empty, puts the request in a slot, and the
    operation the next turn of dequeue builds from that slot has the name "C"
    and the arguments a, empty, empty: the strings of the slot, character for
    character. *)
Theorem v1_round_trip (env : enqueue_env) (s : Win32AttachListener.t) (a : addr)
    (free : list addr) (pipename : list ascii) (e : dequeue_env) (w : World.t) :
  (1 <= name_length_max)%nat -> (1 <= arg_length_max)%nat ->
  shape s (a :: free) [] [] ->
  _enqueued_ops_semaphore s = 0 ->
  ready env ->
  (CStr.strlen pipename <= Win32AttachOperation.pipe_name_max)%nat ->
  (exists rest, CStr.c_str pipename = CStr.lit "\\.\pipe\" ++ rest) ->
  calm e -> created e <> INVALID_HANDLE_VALUE ->
  exists s1 r s2 w2 op o,
    enqueue env s ATTACH_API_V1 (CStr.lit "C") (CStr.lit "a") [] []
      pipename = Ok (0, s1) /\
    requests s1 !! a = Some r /\
    dequeue [e] s1 w = Ok (Returned op, s2, w2) /\
    World.ops w2 !! op = Some o /\
    Win32AttachOperation.name o = CStr.lit "C" /\
    Win32AttachOperation.args o = [CStr.lit "a"; []; []] /\
    Win32AttachOperation.name o = CStr.c_str (Win32AttachOperationRequest.cmd r) /\
    Win32AttachOperation.args o = CStr.c_str <$> Win32AttachOperationRequest._arg r.
Proof.
  intros Hname Harg Hs Hsem Henv Hlen Hprefix He Hcreated.
  set (c := mk_call ATTACH_API_V1 (CStr.lit "C") (CStr.lit "a") []
              [] pipename).
  assert (Hacc : acceptable c).
  { apply illegal_arguments_false.
    unfold c; cbn [call_cmd call_arg0 call_arg1 call_arg2 call_pipename].
    split; [exact Hname|]. split; [exact Harg|].
    split; [apply Nat.le_0_l|]. split; [apply Nat.le_0_l|].
    split; [done|]. by apply strstr_prefix. }
  destruct (v1_request_round_trip env s a free c e w Hs Hsem Henv Hacc eq_refl He Hcreated)
    as (s1 & r & s2 & w2 & op & o & Henq & Hr & Hstored & Hdq & Ho & Hn & Ha).
  exists s1, r, s2, w2, op, o.
  split; [exact Henq|]. split; [done|]. split; [done|]. split; [done|].
  unfold stored, sent in Hstored. injection Hstored as _ Hcmd Hargs _.
  rewrite Hn, Ha. split; [exact Hcmd|]. split; [exact Hargs|]. done.
Qed.

(** C9. Completing a live operation whose pipe is open writes the result
    code, then the text, then flushes, and then closes the pipe and
    destroys the operation.  A write that fails ends the reply: nothing is
    written again and nothing is flushed.  On every path the handle is
    closed exactly once, as the last call, and the operation is gone: a
    second completion finds no object. *)
Theorem complete_closes_once (w : World.t) (a : addr) (o : Win32AttachOperation.t)
    (result : Z) (result_stream : list ascii) (writes : bool * bool) :
  World.ops w !! a = Some o ->
  PipeChannel.opened (Win32AttachOperation._pipe o) = true ->
  let h := PipeChannel._hPipe (Win32AttachOperation._pipe o) in
  let reply :=
    match writes with
    | (true, true) =>
        [SysWriteFile h (PResult result) true;
         SysWriteFile h (PText result_stream) true;
         SysFlushFileBuffers h]
    | (true, false) =>
        [SysWriteFile h (PResult result) true;
         SysWriteFile h (PText result_stream) false]
    | (false, _) => [SysWriteFile h (PResult result) false]
    end in
  exists w',
    complete w (Some a) result result_stream writes = Ok w' /\
    World.syslog w' = World.syslog w ++ reply ++ [SysCloseHandle h] /\
    (SysCloseHandle h ∉ reply) /\
    World.ops w' = delete a (World.ops w) /\
    forall result' result_stream' writes',
      complete w' (Some a) result' result_stream' writes' = Fault Dangling.
Proof.
  intros Ho Hopen h reply. unfold complete, World.deref. rewrite Ho. simpl.
  unfold Win32AttachOperation.write_reply, PipeChannel.write, PipeChannel.flush.
  destruct writes as [[|] [|]]; simpl;
    unfold World.delete_op; simpl; rewrite Ho; unfold PipeChannel.close; rewrite Hopen;
    (eexists; split; [reflexivity|]; simpl;
     split; [repeat rewrite <- app_assoc; reflexivity|];
     split; [subst reply; set_solver|];
     split; [done|];
     intros; by rewrite lookup_delete_eq).
Qed.

Local Arguments Win32AttachOperationRequest.set_value : simpl never.

(** Every string [set] stores for a call that passed the checks ends in a
    NUL inside its buffer. *)
Lemma set_terminated r c :
  sized r -> acceptable c ->
  let r' := Win32AttachOperationRequest.set (unlinked r) (call_ver c)
              (Some (call_pipename c)) (Some (call_cmd c)) (Some (call_arg0 c))
              (Some (call_arg1 c)) (Some (call_arg2 c)) in
  Win32AttachOperationRequest._name r' !! CStr.strlen (call_cmd c) = Some CStr.NUL /\
  Forall2 (fun buf arg => buf !! CStr.strlen arg = Some CStr.NUL)
    (Win32AttachOperationRequest._arg r') [call_arg0 c; call_arg1 c; call_arg2 c] /\
  Win32AttachOperationRequest._pipe r' !! CStr.strlen (call_pipename c) = Some CStr.NUL.
Proof.
  intros (Hn & Ha & Hall & Hp) Hacc.
  apply illegal_arguments_false in Hacc as (Hc & H0 & H1 & H2 & Hpl & _).
  unfold Win32AttachOperationRequest.set; simpl.
  unfold Win32AttachOperationRequest.sizeof_name, Win32AttachOperationRequest.sizeof_arg,
    Win32AttachOperationRequest.sizeof_pipe in *.
  rewrite !Nat.add_1_r in *.
  destruct (Win32AttachOperationRequest._arg r) as [|b0 [|b1 [|b2 [|]]]]; try discriminate Ha.
  apply Forall_cons in Hall as [Hb0 Hall]. apply Forall_cons in Hall as [Hb1 Hall].
  apply Forall_cons in Hall as [Hb2 _].
  split; [by apply set_value_terminated|]. split; [|by apply set_value_terminated].
  repeat constructor; by apply set_value_terminated.
Qed.

(** C10. A call of enqueue whose command, arguments and pipe name have
    exactly the greatest lengths allowed passes the checks and, a slot being
    free, returns 0; and every call that returns 0 has each of its strings
    stored whole in the slot, in a buffer one character longer than the
    bound, with a NUL right after the last character. *)
Theorem boundary_lengths_accepted (env : enqueue_env) (s : Win32AttachListener.t)
    (a : addr) (free queue : list addr) (c : call) :
  shape s (a :: free) queue [] ->
  _enqueued_ops_semaphore s = Z.of_nat (length queue) ->
  ready env ->
  CStr.strlen (call_cmd c) = name_length_max ->
  CStr.strlen (call_arg0 c) = arg_length_max ->
  CStr.strlen (call_arg1 c) = arg_length_max ->
  CStr.strlen (call_arg2 c) = arg_length_max ->
  CStr.strlen (call_pipename c) = Win32AttachOperation.pipe_name_max ->
  (exists rest, CStr.c_str (call_pipename c) = CStr.lit "\\.\pipe\" ++ rest) ->
  (exists s', enqueue_call env s c = Ok (0, s')) /\
  forall c' s',
    enqueue_call env s c' = Ok (0, s') ->
    exists r,
      requests s' !! a = Some r /\
      stored r = sent c' /\
      sized r /\
      Win32AttachOperationRequest._name r !! CStr.strlen (call_cmd c') = Some CStr.NUL /\
      Forall2 (fun buf arg => buf !! CStr.strlen arg = Some CStr.NUL)
        (Win32AttachOperationRequest._arg r) [call_arg0 c'; call_arg1 c'; call_arg2 c'] /\
      Win32AttachOperationRequest._pipe r !! CStr.strlen (call_pipename c') = Some CStr.NUL.
Proof.
  intros Hs Hsem Henv Hcmd Ha0 Ha1 Ha2 Hpipe Hprefix.
  pose proof (shape_lengths _ _ _ _ Hs) as Hlen. simpl in Hlen.
  assert (Hroom : _enqueued_ops_semaphore s + 1 <= max_enqueued_operations).
  { unfold max_enqueued_operations. lia. }
  split.
  - assert (Hacc : acceptable c).
    { apply illegal_arguments_false. rewrite Hcmd, Ha0, Ha1, Ha2, Hpipe.
      repeat (split; [done|]). by apply strstr_prefix. }
    destruct (enqueue_locked_free _ _ _ _ (call_ver c) (call_cmd c) (call_arg0 c)
                (call_arg1 c) (call_arg2 c) (call_pipename c) Hs Hroom)
      as (r0 & s' & _ & Hlk & _).
    exists s'. by rewrite (enqueue_call_locked _ _ _ Henv Hacc).
  - intros c' s' Henq.
    assert (Hacc : acceptable c').
    { unfold acceptable. unfold enqueue_call, enqueue in Henq.
      destruct Henv as [Hup Hmutex]. rewrite Hup in Henq. simpl in Henq.
      by destruct (illegal_arguments _ _ _ _ _). }
    rewrite (enqueue_call_locked _ _ _ Henv Hacc) in Henq.
    destruct (enqueue_locked_free _ _ _ _ (call_ver c') (call_cmd c') (call_arg0 c')
                (call_arg1 c') (call_arg2 c') (call_pipename c') Hs Hroom)
      as (r0 & s'' & Hr0 & Hlk & Hs'' & _ & Ha'' & _).
    rewrite Hlk in Henq. injection Henq as <-.
    pose proof (shape_sized _ _ _ _ Hs a r0 Hr0) as Hsz.
    eexists. split; [exact Ha''|]. split; [by apply stored_set|].
    split; [exact (shape_sized _ _ _ _ Hs'' a _ Ha'')|].
    by apply set_terminated.
Qed.

End Claims.

(** * The claims on sample inputs *)

Section Samples.
#[local] Existing Instance sample_bounds.
Import Lists Win32AttachListener System.

(** The sample states are states of the process. *)

Lemma sample_state_initial_reachable : reachable sample_state_initial.
Proof. apply reachable_initial. by repeat split. Qed.

Lemma sample_state_enqueued_reachable : reachable sample_state_enqueued.
Proof.
  assert (Hcall : enqueue_call sample_env init_state sample_call
                  = Ok (0, listener sample_state_enqueued)) by (by vm_compute).
  assert (Heq : sample_state_enqueued
                = System.mk (listener sample_state_enqueued)
                    (world sample_state_initial) (pc sample_state_initial))
    by (by vm_compute).
  rewrite Heq. eapply reachable_step; [exact sample_state_initial_reachable|].
  eapply step_enqueue; [reflexivity | exact Hcall].
Qed.

Lemma sample_state_woken_reachable : reachable sample_state_woken.
Proof.
  assert (Hwake : dequeue_wake (listener sample_state_enqueued) WAIT_OBJECT_0
                  = Ok (listener sample_state_woken)) by (by vm_compute).
  assert (Heq : sample_state_woken
                = System.mk (listener sample_state_woken)
                    (world sample_state_enqueued) AtMutex)
    by (by vm_compute).
  rewrite Heq. eapply reachable_step; [exact sample_state_enqueued_reachable|].
  eapply step_wake; [by vm_compute | by vm_compute | exact Hwake].
Qed.

Lemma sample_state_in_service_reachable : reachable sample_state_in_service.
Proof.
  assert (Htake : dequeue_take (listener sample_state_woken) sample_turn
                    (world sample_state_woken)
                  = Ok (listener sample_state_in_service, world sample_state_in_service,
                        Some 3%nat, Some 0%nat)) by (by vm_compute).
  assert (Heq : sample_state_in_service
                = System.mk (listener sample_state_in_service)
                    (world sample_state_in_service) (InService (Some 3%nat) (Some 0%nat)))
    by (by vm_compute).
  rewrite Heq. eapply reachable_step; [exact sample_state_woken_reachable|].
  eapply (step_take _ sample_turn); [by vm_compute | reflexivity | reflexivity | exact Htake].
Qed.

Lemma sample_listener_two_shape :
  shape sample_listener_two [1; 0]%nat [3; 2]%nat [] /\
  _enqueued_ops_semaphore sample_listener_two = 2.
Proof.
  destruct (enqueue_all_shape [(sample_env, sample_call); (sample_env, sample_call_v2)]
              _ _ _ init_state_shape eq_refl) as (s & Hrun & Hs & _).
  { simpl. lia. }
  { repeat constructor; by vm_compute. }
  assert (Hs2 : enqueue_all [(sample_env, sample_call); (sample_env, sample_call_v2)]
                  init_state = Ok ([0; 0], sample_listener_two)) by (by vm_compute).
  rewrite Hs2 in Hrun. injection Hrun as <-. split; [exact Hs | by vm_compute].
Qed.

Lemma enqueue_dequeue_fifo_witness :
  let calls := [(sample_env, sample_call); (sample_env, sample_call_v2)] in
  let turns := [sample_turn; sample_turn_no_pipe] in
  ((length calls <= Z.to_nat max_enqueued_operations)%nat /\
   Forall (fun ec => ready ec.1 /\ acceptable ec.2) calls /\
   length turns = length calls /\
   Forall calm turns) /\
  exists s slots served s' w',
    enqueue_all calls init_state = Ok (replicate (length calls) 0, s) /\
    pending s = slots /\
    length slots = length calls /\
    (forall k, (k <= length calls)%nat ->
       exists sk, enqueue_all (take k calls) init_state = Ok (replicate k 0, sk) /\
                  pending sk = take k slots) /\
    dequeue_turns turns s World.empty = Ok (served, s', w') /\
    served.*1.*1 = Some <$> slots /\
    served.*1.*2 = (fun ec => Some (sent ec.2)) <$> calls /\
    pending s' = [].
Proof.
  intros calls turns.
  assert (Hlen : (length calls <= Z.to_nat max_enqueued_operations)%nat)
    by (vm_compute; lia).
  assert (Hok : Forall (fun ec => ready ec.1 /\ acceptable ec.2) calls).
  { repeat constructor; vm_compute; reflexivity. }
  assert (Hturns : length turns = length calls) by reflexivity.
  assert (Hcalm : Forall calm turns) by (repeat constructor).
  split; [done|].
  exact (enqueue_dequeue_fifo calls turns World.empty Hlen Hok Hturns Hcalm).
Defined.


Lemma slots_in_one_place_witness :
  reachable sample_state_in_service /\
  let σ := sample_state_in_service in
  let s := listener σ in
  NoDup (pool s ++ pending s ++ in_flight (pc σ)) /\
  pool s ++ pending s ++ in_flight (pc σ) ≡ₚ pool init_state /\
  length (pool init_state) = Z.to_nat max_enqueued_operations /\
  (mutex_free (pc σ) = true -> pool s ++ pending s ≡ₚ pool init_state) /\
  (length (pending s) <= Z.to_nat max_enqueued_operations)%nat.
Proof.
  split; [exact sample_state_in_service_reachable|].
  exact (slots_in_one_place sample_state_in_service sample_state_in_service_reachable).
Defined.

Lemma pool_exhaustion_and_recovery_witness :
  let calls := [(sample_env, sample_call); (sample_env, sample_call_v2);
                (sample_env, sample_call); (sample_env, sample_call_longest);
                (sample_env, sample_call_v2)] in
  exists s,
    enqueue_all calls init_state = Ok ([0; 0; 0; 0; ATTACH_ERROR_RESOURCE], s) /\
    pool s = [] /\
    enqueue_call sample_env s sample_call = Ok (ATTACH_ERROR_RESOURCE, s) /\
    exists s1 w1 request op s2,
      dequeue_turn s sample_turn_no_pipe World.empty = Ok (s1, w1, request, op) /\
      length (pool s1) = 1%nat /\
      enqueue_call sample_env s1 sample_call = Ok (0, s2).
Proof.
  intros calls.
  apply (pool_exhaustion_and_recovery calls sample_turn_no_pipe World.empty
           sample_env sample_call).
  - reflexivity.
  - repeat constructor; by vm_compute.
  - by split.
  - by split.
  - by vm_compute.
Defined.

Lemma illegal_argument_rejected_witness :
  (name_length_max < CStr.strlen (call_cmd sample_call_long_command))%nat /\
  enqueue sample_env sample_listener_two ATTACH_API_V1
    (call_cmd sample_call_long_command) [] [] []
    (call_pipename sample_call_long_command)
  = Ok (ATTACH_ERROR_ILLEGALARG, sample_listener_two).
Proof.
  assert (Hlong : (name_length_max < CStr.strlen (call_cmd sample_call_long_command))%nat)
    by (vm_compute; lia).
  split; [exact Hlong|].
  apply illegal_argument_rejected; [reflexivity | by left].
Defined.

Lemma dequeue_returns_usable_operation_witness :
  let script := [sample_turn_no_pipe; sample_turn] in
  exists stop s' w' served,
    dequeue script sample_listener_two World.empty = Ok (stop, s', w') /\
    dequeue_turns (take (length served) script) sample_listener_two World.empty
      = Ok (served, s', w') /\
    served.*1.*1 = Some <$> take (length served) [3; 2]%nat /\
    pool s' = reverse (take (length served) [3; 2]%nat) ++ [1; 0]%nat /\
    pending s' = drop (length served) [3; 2]%nat /\
    Forall2
      (fun (e : dequeue_env) (sv : service) =>
         exists ver cmd args pipe,
           sv.1.2 = Some (ver, cmd, args, pipe) /\
           (sv.2 = None <->
              created e = INVALID_HANDLE_VALUE \/
              (ver = ATTACH_API_V2 /\ decoded e = None) \/
              (exists v, ver = ATTACH_API_other v)))
      (take (length served) script) served /\
    match stop with
    | Returned a =>
        served.*2 = replicate (length served - 1) None ++ [Some a] /\
        exists o, World.ops w' !! a = Some o /\
                  PipeChannel.opened (Win32AttachOperation._pipe o) = true /\
                  exists e request ver cmd args pipe,
                    last (take (length served) script) = Some e /\
                    last served = Some (request, Some (ver, cmd, args, pipe), Some a) /\
                    created e <> INVALID_HANDLE_VALUE /\
                    Win32AttachOperation._pipe o = PipeChannel.mk (created e) /\
                    match ver with
                    | ATTACH_API_V1 =>
                        Win32AttachOperation.name o = cmd /\
                        Win32AttachOperation.args o = args
                    | ATTACH_API_V2 =>
                        decoded e =
                          Some (Win32AttachOperation.name o, Win32AttachOperation.args o)
                    | ATTACH_API_other _ => False
                    end
    | Blocked =>
        served.*2 = replicate (length served) None /\
        length served = length [3; 2]%nat
    | ScriptEnded =>
        served.*2 = replicate (length served) None /\
        length served = length script /\ (length script < length [3; 2]%nat)%nat
    end.
Proof.
  intros script.
  apply (dequeue_returns_usable_operation script sample_listener_two World.empty
           [1; 0]%nat [3; 2]%nat).
  - exact (proj1 sample_listener_two_shape).
  - exact (proj2 sample_listener_two_shape).
  - repeat constructor.
Defined.


(** The count of the semaphore is not always the length of the queue: after
    one call of enqueue and the return of the wait of the listener thread for
    the semaphore, the count is 0 while the queue holds one request. *)
Lemma semaphore_behind_queue :
  reachable sample_state_woken /\
  _enqueued_ops_semaphore (listener sample_state_woken) = 0 /\
  pending (listener sample_state_woken) = [3%nat] /\
  _enqueued_ops_semaphore (listener sample_state_woken)
    <> Z.of_nat (length (pending (listener sample_state_woken))).
Proof.
  split; [exact sample_state_woken_reachable|].
  split; [by vm_compute|]. split; [by vm_compute|]. by vm_compute.
Defined.

Lemma semaphore_tracks_queue_witness :
  reachable sample_state_woken /\
  let σ := sample_state_woken in
  let s := listener σ in
  0 <= _enqueued_ops_semaphore s <= max_enqueued_operations /\
  _enqueued_ops_semaphore s + woken (pc σ) = Z.of_nat (length (pending s)) /\
  (mutex_free (pc σ) = true ->
   forall env ver cmd arg0 arg1 arg2 pipename,
   exists code s',
     enqueue env s ver cmd arg0 arg1 arg2 pipename = Ok (code, s') /\
     _enqueued_ops_semaphore s' =
       _enqueued_ops_semaphore s + (if code =? 0 then 1 else 0)) /\
  (pc σ = AtMutex ->
   forall e, exists s' w' a op,
     dequeue_take s e (world σ) = Ok (s', w', Some a, op)) /\
  (forall request op, pc σ = InService request op ->
   request <> None /\ exists s', dequeue_put_back s request = Ok s').
Proof.
  split; [exact sample_state_woken_reachable|].
  exact (semaphore_tracks_queue sample_state_woken sample_state_woken_reachable).
Defined.

Lemma v1_round_trip_witness :
  exists s1 r s2 w2 op o,
    enqueue sample_env init_state ATTACH_API_V1 (CStr.lit "C") (CStr.lit "a")
      [] [] (CStr.lit "\\.\pipe\javatool1") = Ok (0, s1) /\
    requests s1 !! 3%nat = Some r /\
    dequeue [sample_turn] s1 World.empty = Ok (Returned op, s2, w2) /\
    World.ops w2 !! op = Some o /\
    Win32AttachOperation.name o = CStr.lit "C" /\
    Win32AttachOperation.args o = [CStr.lit "a"; []; []] /\
    Win32AttachOperation.name o = CStr.c_str (Win32AttachOperationRequest.cmd r) /\
    Win32AttachOperation.args o = CStr.c_str <$> Win32AttachOperationRequest._arg r.
Proof.
  apply (v1_round_trip sample_env init_state 3%nat [2; 1; 0]%nat
           (CStr.lit "\\.\pipe\javatool1") sample_turn World.empty).
  - simpl. lia.
  - simpl. lia.
  - exact init_state_shape.
  - reflexivity.
  - by split.
  - vm_compute. lia.
  - by exists (CStr.lit "javatool1").
  - by split.
  - by vm_compute.
Defined.

Lemma complete_closes_once_witness :
  exists w',
    complete sample_world (Some 0%nat) 0 (CStr.lit "OK") (true, false) = Ok w' /\
    World.syslog w' =
      World.syslog sample_world ++
      [SysWriteFile 77 (PResult 0) true; SysWriteFile 77 (PText (CStr.lit "OK")) false] ++
      [SysCloseHandle 77] /\
    (SysCloseHandle 77 ∉
       [SysWriteFile 77 (PResult 0) true; SysWriteFile 77 (PText (CStr.lit "OK")) false]) /\
    World.ops w' = delete 0%nat (World.ops sample_world) /\
    forall result' result_stream' writes',
      complete w' (Some 0%nat) result' result_stream' writes' = Fault Dangling.
Proof.
  apply (complete_closes_once sample_world 0%nat
           (Win32AttachOperation.mk (CStr.lit "C")
              [CStr.lit "a"; []; []] (PipeChannel.mk 77))
           0 (CStr.lit "OK") (true, false)).
  - by vm_compute.
  - reflexivity.
Defined.

Lemma boundary_lengths_accepted_witness :
  (CStr.strlen (call_cmd sample_call_longest) = name_length_max /\
   CStr.strlen (call_arg0 sample_call_longest) = arg_length_max /\
   CStr.strlen (call_pipename sample_call_longest) = Win32AttachOperation.pipe_name_max) /\
  (exists s', enqueue_call sample_env sample_listener_two sample_call_longest = Ok (0, s')) /\
  forall c' s',
    enqueue_call sample_env sample_listener_two c' = Ok (0, s') ->
    exists r,
      requests s' !! 1%nat = Some r /\
      stored r = sent c' /\
      sized r /\
      Win32AttachOperationRequest._name r !! CStr.strlen (call_cmd c') = Some CStr.NUL /\
      Forall2 (fun buf arg => buf !! CStr.strlen arg = Some CStr.NUL)
        (Win32AttachOperationRequest._arg r) [call_arg0 c'; call_arg1 c'; call_arg2 c'] /\
      Win32AttachOperationRequest._pipe r !! CStr.strlen (call_pipename c') = Some CStr.NUL.
Proof.
  assert (Hcmd : CStr.strlen (call_cmd sample_call_longest) = name_length_max)
    by reflexivity.
  assert (Ha0 : CStr.strlen (call_arg0 sample_call_longest) = arg_length_max)
    by reflexivity.
  assert (Ha1 : CStr.strlen (call_arg1 sample_call_longest) = arg_length_max)
    by reflexivity.
  assert (Ha2 : CStr.strlen (call_arg2 sample_call_longest) = arg_length_max)
    by reflexivity.
  assert (Hp : CStr.strlen (call_pipename sample_call_longest)
               = Win32AttachOperation.pipe_name_max) by reflexivity.
  split; [exact (conj Hcmd (conj Ha0 Hp))|].
  assert (Hready : ready sample_env) by (split; reflexivity).
  apply (boundary_lengths_accepted sample_env sample_listener_two 1%nat [0%nat]
           [3; 2]%nat sample_call_longest
           (proj1 sample_listener_two_shape) (proj2 sample_listener_two_shape)
           Hready Hcmd Ha0 Ha1 Ha2 Hp).
  exists (replicate 247 "p"%char). by vm_compute.
Defined.

End Samples.

(** * Further properties of the code *)

Section BufferMore.
Import CStr Win32AttachOperationRequest.

(** What [strncpy] writes, in full: the string cut at [n] characters, then
    NULs up to [n]. *)
Lemma strncpy_chars_eq src n :
  strncpy_chars src n = take n (c_str src) ++ replicate (n - length (c_str src))%nat NUL.
Proof.
  revert src; induction n as [|n IH]; intros src; simpl; [by rewrite ?take_0|].
  destruct src as [|c src]; simpl; [done|].
  destruct (is_nul c) eqn:E; simpl; [done|]. by rewrite IH.
Qed.

Lemma c_str_NUL_head rest : c_str (NUL :: rest) = [].
Proof. reflexivity. Qed.

(** X1. Whatever the buffer held and however long the string given is,
    [set_value], with its assertion compiled out, keeps the size of the
    buffer and leaves in it a string that ends inside the buffer: the string
    given cut at one character less than the size, or the empty string for a
    null pointer. *)
Theorem set_value_bounded (dst : list ascii) (str : option (list ascii)) (n : nat) :
  length dst = S n ->
  let dst' := set_value dst str (S n) in
  length dst' = S n /\
  c_str dst' = match str with
               | Some s => take n (c_str s)
               | None => []
               end /\
  (strlen dst' <= n)%nat /\
  dst' !! strlen dst' = Some NUL.
Proof.
  intros Hlen dst'. subst dst'. split; [by apply length_set_value|].
  destruct str as [s|].
  - rewrite set_value_Some by done. unfold strlen.
    rewrite c_str_strncpy_chars. split; [done|].
    split; [rewrite length_take; lia|].
    rewrite strncpy_chars_eq, <- (assoc_L (++)).
    rewrite lookup_app_r by done.
    replace (length (take n (c_str s)) - length (take n (c_str s)))%nat with O by lia.
    by destruct (n - length (c_str s))%nat.
  - unfold set_value, strcpy_empty, strlen.
    destruct dst as [|c dst]; [discriminate Hlen|]. simpl.
    split; [done|]. split; [lia|done].
Qed.

(** X2. A string given to [set_value] replaces the whole buffer: what the
    buffer held before has no part in what it holds after, and every
    character behind the string is NUL.  For a null pointer only the first
    character is written; the rest of the buffer stays as it was. *)
Theorem set_value_overwrites (dst : list ascii) (str : option (list ascii)) (n : nat) :
  length dst = S n ->
  match str with
  | Some s =>
      set_value dst str (S n) =
        take n (c_str s) ++ replicate (S n - length (take n (c_str s)))%nat NUL
  | None => set_value dst str (S n) = NUL :: drop 1 dst
  end.
Proof.
  intros Hlen. destruct str as [s|].
  - rewrite set_value_Some by done.
    rewrite strncpy_chars_eq, <- (assoc_L (++)). f_equal.
    assert (E : (S n - length (take n (c_str s)) = S (n - length (c_str s)))%nat)
      by (rewrite length_take; lia).
    rewrite E. by rewrite replicate_S_end.
  - unfold set_value, strcpy_empty.
    destruct dst as [|c dst]; [discriminate Hlen|]. simpl. by rewrite drop_0.
Qed.

End BufferMore.

Section ReadinessMore.
Import Win32AttachListener.

Lemma wait_for_listener_from (f : nat -> bool) (m c : nat) :
  (c + m = 10)%nat ->
  (forall j, (j < c)%nat -> f j = false) ->
  exists k,
    (c <= k)%nat /\
    snd (wait_for_listener f (Z.of_nat c) (replicate c 1000)) = replicate k 1000 /\
    (forall j, (j < k)%nat -> (j <= 10)%nat -> f j = false) /\
    (fst (wait_for_listener f (Z.of_nat c) (replicate c 1000)) = true ->
     (k <= 10)%nat /\ f k = true) /\
    (fst (wait_for_listener f (Z.of_nat c) (replicate c 1000)) = false -> k = 11%nat).
Proof.
  revert c; induction m as [|m IH]; intros c Hc Hbefore;
    rewrite wait_for_listener_equation_1, length_replicate;
    destruct (f c) eqn:Hfc; simpl.
  - exists c. repeat split; try done; try lia. auto.
  - destruct (Z_gt_dec (Z.of_nat c + 1) 10) as [_|Hle]; [|lia]. simpl.
    exists 11%nat. replace c with 10%nat in * by lia.
    repeat split; try done; try lia.
    intros j Hj _. destruct (decide (j = 10%nat)) as [->|]; [done|]. apply Hbefore. lia.
  - exists c. repeat split; try done; try lia. auto.
  - destruct (Z_gt_dec (Z.of_nat c + 1) 10) as [Hgt|_]; [lia|].
    destruct (IH (S c)) as (k & Hk & Hs & Hb & Hup & Hdown).
    { lia. }
    { intros j Hj. destruct (decide (j = c)) as [->|]; [done|]. apply Hbefore. lia. }
    replace (Z.of_nat c + 1) with (Z.of_nat (S c)) by lia.
    replace (replicate c 1000 ++ [1000]) with (replicate (S c) 1000)
      by (by rewrite replicate_S_end).
    exists k. split; [lia|]. done.
Qed.

(** X3. Whatever the answers of the listener, the readiness loop ends: it
    sleeps one second at a time, as many times as the first moment at which
    it finds the listener up, which it then reports; it gives up, having
    slept eleven times, exactly when the listener was down at each of its
    eleven looks (after 0 to 10 sleeps). *)
Theorem wait_for_listener_first_up (f : nat -> bool) :
  exists k,
    snd (wait_for_listener f 0 []) = replicate k 1000 /\
    (forall j, (j < k)%nat -> (j <= 10)%nat -> f j = false) /\
    (fst (wait_for_listener f 0 []) = true -> (k <= 10)%nat /\ f k = true) /\
    (fst (wait_for_listener f 0 []) = false -> k = 11%nat).
Proof.
  destruct (wait_for_listener_from f 10 0 eq_refl) as (k & _ & Hs & Hb & Hup & Hdown).
  { intros j Hj. lia. }
  exists k. done.
Qed.

End ReadinessMore.

Section PipeMore.

Lemma handles_open_app log1 log2 :
  handles_open (log1 ++ log2) = handles_open log1 + handles_open log2.
Proof.
  induction log1 as [|[] log1 IH]; simpl; rewrite ?IH; lia.
Qed.

(** X4. A channel that is opened and then closed: [open] reports success
    exactly when [CreateFile] gave a handle, and then the channel is opened;
    [close] gives that handle to [CloseHandle] once, and only if the channel
    was opened; after it the channel is not opened and a second [close],
    as the destructor makes, calls nothing. *)
Theorem pipe_open_close (pipe : list ascii) (write_only : bool) (created : HANDLE)
    (log : list syscall) :
  let '(ok, c, log1) := PipeChannel.open PipeChannel.new pipe write_only created log in
  let '(c', log2) := PipeChannel.close c log1 in
  ok = negb (created =? INVALID_HANDLE_VALUE) /\
  PipeChannel.opened c = ok /\
  log2 = log ++ [SysCreateFile (CStr.c_str pipe) write_only created]
             ++ (if ok then [SysCloseHandle created] else []) /\
  PipeChannel.opened c' = false /\
  PipeChannel.close c' log2 = (c', log2) /\
  handles_open log2 = handles_open log.
Proof.
  unfold PipeChannel.open, PipeChannel.close, PipeChannel.opened. simpl.
  destruct (created =? INVALID_HANDLE_VALUE) eqn:Hc; simpl; rewrite ?Hc; simpl; rewrite ?Hc; simpl.
  - repeat split; try done.
    rewrite handles_open_app. simpl. rewrite Hc. lia.
  - repeat split; try done; [by rewrite <- (assoc_L (++))|].
    rewrite !handles_open_app. simpl. rewrite Hc. lia.
Qed.

(** X5. For a size that fits an [int] and a count that is at most the size,
    as [ReadFile] and [WriteFile] give it, [read] and [write] return -1
    exactly when the system call failed, and the count when it did not. *)
Theorem pipe_read_write_result (size : Z) (fSuccess : bool) (n : Z) :
  0 <= size < 2 ^ 31 ->
  0 <= n <= DWORD_of_int size ->
  (PipeChannel_read size fSuccess n = -1 <-> fSuccess = false) /\
  (PipeChannel_write size fSuccess n = -1 <-> fSuccess = false) /\
  (fSuccess = true ->
   PipeChannel_read size fSuccess n = n /\ PipeChannel_write size fSuccess n = n /\
   0 <= n <= size).
Proof.
  intros Hsize Hn. unfold DWORD_of_int in Hn.
  rewrite Z.mod_small in Hn by lia.
  assert (Hcast : int_of_DWORD n = n).
  { unfold int_of_DWORD. rewrite Z.mod_small by lia. lia. }
  unfold PipeChannel_read, PipeChannel_write. rewrite Hcast.
  destruct fSuccess; simpl; repeat split; try done; try lia.
Qed.

End PipeMore.

Section DispatchMore.
Import Win32AttachListener.

(** The V1 branch with an open pipe, whatever the size of [_arg]. *)
Lemma dispatch_V1_pipe r e w :
  Win32AttachOperationRequest.ver r = ATTACH_API_V1 ->
  created e <> INVALID_HANDLE_VALUE ->
  exists o,
    dispatch r e w =
      Ok (Some (fresh (dom (World.ops w))),
          World.mk (<[fresh (dom (World.ops w)) := o]> (World.ops w))
            (World.syslog w ++
               [SysCreateFile (CStr.c_str (Win32AttachOperationRequest.pipe r)) true
                  (created e)])) /\
    Win32AttachOperation._pipe o = PipeChannel.mk (created e).
Proof.
  intros Hv Hc. unfold dispatch. rewrite Hv.
  unfold World.new_op. set (a := fresh (dom (World.ops w))).
  unfold arg_count_max, append_args.
  repeat (erewrite world_update_Some by apply lookup_insert_eq; rewrite bind_Ok).
  rewrite ?bind_Ok.
  erewrite world_open_pipe_Some by apply lookup_insert_eq. rewrite bind_Ok.
  apply Z.eqb_neq in Hc. rewrite Hc. simpl negb. cbv iota.
  rewrite !insert_insert_eq. eexists. split; [reflexivity|]. done.
Qed.

Lemma dispatch_balance (r : Win32AttachOperationRequest.t) (e : dequeue_env)
    (w : World.t) :
  exists op w',
    dispatch r e w = Ok (op, w') /\
    match op with
    | Some a =>
        World.ops w !! a = None /\
        (exists o, World.ops w' = <[a := o]> (World.ops w) /\
                   PipeChannel.opened (Win32AttachOperation._pipe o) = true) /\
        handles_open (World.syslog w') = handles_open (World.syslog w) + 1
    | None =>
        World.ops w' = World.ops w /\
        handles_open (World.syslog w') = handles_open (World.syslog w)
    end.
Proof.
  destruct (Win32AttachOperationRequest.ver r) as [| |v] eqn:Hv.
  - destruct (Z.eqb_spec (created e) INVALID_HANDLE_VALUE) as [Hc|Hc].
    + eexists _, _. split; [by apply dispatch_V1_no_pipe|]. simpl.
      split; [done|]. rewrite handles_open_app. simpl. lia.
    + destruct (dispatch_V1_pipe r e w Hv Hc) as (o & Hd & Hp).
      eexists _, _. split; [exact Hd|]. simpl.
      split; [apply fresh_op_absent|]. split.
      * exists o. split; [done|]. rewrite Hp. unfold PipeChannel.opened. simpl.
        by apply Z.eqb_neq in Hc as ->.
      * rewrite handles_open_app. simpl. apply Z.eqb_neq in Hc as ->. lia.
  - destruct (Z.eqb_spec (created e) INVALID_HANDLE_VALUE) as [Hc|Hc].
    + eexists _, _. split; [by apply dispatch_V2_no_pipe|]. simpl.
      split; [done|]. rewrite handles_open_app. simpl. lia.
    + pose proof (dispatch_V2 r e w Hv Hc) as Hd. cbv zeta in Hd.
      destruct (decoded e) as [[n args]|].
      * eexists _, _. split; [exact Hd|]. simpl.
        split; [apply fresh_op_absent|]. split.
        -- eexists. split; [done|]. unfold PipeChannel.opened. simpl.
           by apply Z.eqb_neq in Hc as ->.
        -- rewrite handles_open_app. simpl. apply Z.eqb_neq in Hc as ->. lia.
      * eexists _, _. split; [exact Hd|]. simpl.
        split; [done|]. rewrite handles_open_app. simpl.
        apply Z.eqb_neq in Hc as ->. lia.
  - eexists _, _. split; [by eapply dispatch_other|]. done.
Qed.


(** X6. Dispatching a request never faults.  Either it hands out one new
    operation, live and with its pipe open, and the log has one handle more
    open than before; or it hands out none, and then the operations are as
    they were and every handle it opened is closed again.  The reading of
    the request in the V2 branch ([AttachOperation::read_request], not in
    this file) is taken to open and close nothing. *)
Theorem dispatch_keeps_balance (r : Win32AttachOperationRequest.t) (e : dequeue_env)
    (w : World.t) :
  exists op w',
    dispatch r e w = Ok (op, w') /\
    match op with
    | Some a =>
        World.ops w !! a = None /\
        (exists o, World.ops w' = <[a := o]> (World.ops w) /\
                   PipeChannel.opened (Win32AttachOperation._pipe o) = true) /\
        handles_open (World.syslog w') = handles_open (World.syslog w) + 1
    | None =>
        World.ops w' = World.ops w /\
        handles_open (World.syslog w') = handles_open (World.syslog w)
    end.
Proof.
  destruct (dispatch_balance r e w) as (op & w' & Hd & Hop).
  exists op, w'. split; [exact Hd | exact Hop].
Qed.

End DispatchMore.

Section WorldMore.
Context `{Bounds}.
Import Lists Win32AttachListener System.

Lemma complete_balance w a o result result_stream writes :
  World.ops w !! a = Some o ->
  PipeChannel.opened (Win32AttachOperation._pipe o) = true ->
  exists w',
    complete w (Some a) result result_stream writes = Ok w' /\
    World.ops w' = delete a (World.ops w) /\
    handles_open (World.syslog w') = handles_open (World.syslog w) - 1.
Proof.
  intros Ho Hopen. unfold complete, World.deref. rewrite Ho. simpl.
  unfold Win32AttachOperation.write_reply, PipeChannel.write, PipeChannel.flush.
  destruct writes as [[|] [|]]; simpl;
    unfold World.delete_op; simpl; rewrite Ho; unfold PipeChannel.close; rewrite Hopen;
    (eexists; split; [reflexivity|]; simpl; split; [done|];
     rewrite !handles_open_app; simpl; lia).
Qed.

Lemma dequeue_take_dispatch s e w s' w' request op :
  dequeue_take s e w = Ok (s', w', request, op) ->
  (request = None /\ op = None /\ w' = w) \/
  (exists r, dispatch r e w = Ok (op, w')).
Proof.
  unfold dequeue_take, head. destruct (_head s) as [a|]; [|intros [= <- <- <- <-]; by left].
  unfold deref. destruct (requests s !! a) as [r|]; [|done]. rewrite bind_Ok.
  destruct (dispatch r e w) as [[op0 w0]|] eqn:Hd; [|done]. simpl.
  intros [= <- <- <- <-]. right. by exists r.
Qed.

Lemma inv_world_step σ σ' : inv_world σ -> step σ σ' -> inv_world σ'.
Proof.
  intros Hw Hstep.
  destruct Hstep as
    [σ env ver cmd arg0 arg1 arg2 pipename code s' Hfree Henq
    |σ res s' Hat Hpos Hwake
    |σ e s' w' request op Hat Hg1 Hg2 Htake
    |σ request op s' Hat Hput
    |σ a result result_stream writes w' Hat Hcomplete];
    unfold inv_world in *; simpl.
  - done.
  - by rewrite Hat in Hw.
  - rewrite Hat in Hw. simpl in Hw. destruct Hw as [Hops Hh].
    apply dequeue_take_dispatch in Htake as [(-> & -> & ->)|[r Hd]]; [done|].
    destruct (dispatch_balance r e (world σ)) as (op2 & w2 & Hd2 & Hop).
    rewrite Hd in Hd2. injection Hd2 as <- <-.
    destruct op as [a|].
    + destruct Hop as (_ & (o & Ho & Hopen) & Hh'). split; [|lia].
      exists o. split; [|done]. rewrite Ho, Hops. apply insert_empty.
    + destruct Hop as [Ho Hh']. split; [by rewrite Ho | lia].
  - rewrite Hat in Hw. simpl in Hw. by destruct op.
  - rewrite Hat in Hw. simpl in Hw. destruct Hw as [(o & Ho & Hopen) Hh].
    destruct (complete_balance (world σ) a o result result_stream writes)
      as (w2 & Hc & Hops & Hh2); [by rewrite Ho, lookup_singleton_eq | done |].
    rewrite Hc in Hcomplete. injection Hcomplete as <-.
    split; [|lia]. rewrite Hops, Ho. apply delete_singleton_eq.
Qed.

Lemma inv_world_reachable σ : reachable σ -> inv_world σ.
Proof.
  induction 1 as [σ (_ & Hw & Hpc)|σ σ' _ IH Hstep]; [|by eapply inv_world_step].
  unfold inv_world. by rewrite Hpc, Hw.
Qed.

(** X7. In every state the process reaches, the operations alive are at
    most one, the one the listener thread holds, whose pipe is open; and
    the handles the log leaves open are that one, or none when the thread
    holds no operation: no operation and no handle is leaked.  The process
    is one listener thread and any number of callers of enqueue; the shared
    [read_request] and [write_reply], which are not in this file, are taken
    to open and close nothing. *)
Theorem no_operation_or_handle_leak (σ : System.t) :
  reachable σ ->
  match held_op (pc σ) with
  | Some a =>
      (exists o, World.ops (world σ) = {[ a := o ]} /\
                 PipeChannel.opened (Win32AttachOperation._pipe o) = true) /\
      handles_open (World.syslog (world σ)) = 1
  | None =>
      World.ops (world σ) = ∅ /\ handles_open (World.syslog (world σ)) = 0
  end.
Proof.
  intros Hreach. pose proof (inv_world_reachable σ Hreach) as Hw.
  unfold inv_world in Hw. exact Hw.
Qed.

(** X8. When dequeue has returned an operation to the listener thread,
    completing it never faults, whatever the result, the text and the fate
    of the writes; afterwards no operation is alive and no handle is open.
    ([write_reply] is not in this file: it is taken to write and flush
    only.) *)
Theorem complete_after_dequeue (σ : System.t) (a : addr) (result : Z)
    (result_stream : list ascii) (writes : bool * bool) :
  reachable σ ->
  pc σ = Executing a ->
  exists w',
    complete (world σ) (Some a) result result_stream writes = Ok w' /\
    World.ops w' = ∅ /\
    handles_open (World.syslog w') = 0 /\
    reachable (System.mk (listener σ) w' AtSemaphore).
Proof.
  intros Hreach Hat. pose proof (inv_world_reachable σ Hreach) as Hw.
  unfold inv_world in Hw. rewrite Hat in Hw. simpl in Hw.
  destruct Hw as [(o & Ho & Hopen) Hh].
  destruct (complete_balance (world σ) a o result result_stream writes)
    as (w' & Hc & Hops & Hh'); [by rewrite Ho, lookup_singleton_eq | done |].
  exists w'. split; [done|]. split; [by rewrite Hops, Ho, delete_singleton_eq|].
  split; [lia|]. eapply reachable_step; [exact Hreach|]. by eapply step_complete.
Qed.

End WorldMore.

Section ListenerMore.
Context `{Bounds}.
Import Lists Win32AttachListener System.
Local Arguments Win32AttachOperationRequest.set_value : simpl never.

Lemma stored_new :
  stored Win32AttachOperationRequest.new =
    (ATTACH_API_V1, [], [[]; []; []], CStr.lit "<nopipe>").
Proof.
  unfold stored, Win32AttachOperationRequest.new, Win32AttachOperationRequest.set,
    Win32AttachOperationRequest.raw, Win32AttachOperationRequest.set_next,
    Win32AttachOperationRequest.cmd, Win32AttachOperationRequest.pipe,
    Win32AttachOperationRequest.ver,
    Win32AttachOperationRequest.sizeof_name, Win32AttachOperationRequest.sizeof_arg,
    Win32AttachOperationRequest.sizeof_pipe.
  rewrite !Nat.add_1_r.
  cbn [Win32AttachOperationRequest._ver Win32AttachOperationRequest._name
       Win32AttachOperationRequest._arg Win32AttachOperationRequest._pipe].
  rewrite c_str_set_value; [|by rewrite length_replicate|vm_compute; lia].
  unfold Win32AttachOperationRequest.set_value, CStr.strcpy_empty, arg_count_max.
  cbn [replicate alter list_alter fmap list_fmap insert list_insert].
  reflexivity.
Qed.

(** X9. [init] stops on a failed [guarantee] when the mutex or the semaphore
    could not be created.  Otherwise it leaves four distinct requests on the
    available list, an empty queue with null head and tail, and the
    semaphore at 0; each request is as its constructor made it: version V1,
    empty command and arguments, and the pipe name <nopipe>. *)
Theorem init_postcondition (mutex_created semaphore_created : bool) :
  match init mutex_created semaphore_created with
  | Fault f => f = GuaranteeFailed /\ mutex_created && semaphore_created = false
  | Ok s =>
      mutex_created && semaphore_created = true /\
      length (pool s) = Z.to_nat max_enqueued_operations /\
      NoDup (pool s) /\
      pending s = [] /\ _head s = None /\ _tail s = None /\
      _enqueued_ops_semaphore s = 0 /\
      forall a, a ∈ pool s ->
        exists r, requests s !! a = Some r /\
                  stored r = (ATTACH_API_V1, [], [[]; []; []], CStr.lit "<nopipe>")
  end.
Proof.
  destruct mutex_created, semaphore_created; try done.
  rewrite init_ok.
  pose proof init_state_shape as Hs.
  rewrite (shape_pool _ _ _ _ Hs), (shape_pending _ _ _ _ Hs).
  split; [done|]. split; [done|].
  split; [pose proof (shape_nodup _ _ _ _ Hs) as Hnd; by rewrite !app_nil_r in Hnd|].
  split; [done|]. split; [done|]. split; [done|]. split; [done|].
  intros a Ha. rewrite init_state_eq. cbv zeta. simpl.
  repeat (apply elem_of_cons in Ha as [->|Ha];
          [eexists; split; [by simplify_map_eq|]; apply stored_new|]).
  by apply elem_of_nil in Ha.
Qed.

(** X10. From a well-shaped state with the mutex free, enqueue never faults
    and returns one of the five codes, each for its own reason and in this
    order: 100 when the listener is not seen up; else 102 when a parameter
    fails its check; else 103 when the mutex is not acquired; else 101 when
    the available list is empty; else 0.  The state changes only when it
    returns 0. *)
Theorem enqueue_return_code (env : enqueue_env) (s : Win32AttachListener.t)
    (free queue : list addr) (ver : AttachAPIVersion)
    (cmd arg0 arg1 arg2 pipename : list ascii) :
  shape s free queue [] ->
  _enqueued_ops_semaphore s = Z.of_nat (length queue) ->
  let up := fst (wait_for_listener (is_initialized env) 0 []) in
  let legal := negb (illegal_arguments cmd arg0 arg1 arg2 pipename) in
  let locked := mutex_wait env =? WAIT_OBJECT_0 in
  exists code s',
    enqueue env s ver cmd arg0 arg1 arg2 pipename = Ok (code, s') /\
    (code = ATTACH_ERROR_DISABLED <-> up = false) /\
    (code = ATTACH_ERROR_ILLEGALARG <-> up = true /\ legal = false) /\
    (code = ATTACH_ERROR_INTERNAL <-> up = true /\ legal = true /\ locked = false) /\
    (code = ATTACH_ERROR_RESOURCE <->
       up = true /\ legal = true /\ locked = true /\ free = []) /\
    (code = 0 <-> up = true /\ legal = true /\ locked = true /\ free <> []) /\
    (code <> 0 -> s' = s).
Proof.
  intros Hs Hsem up legal locked. subst up legal locked. unfold enqueue.
  unfold ATTACH_ERROR_DISABLED, ATTACH_ERROR_ILLEGALARG, ATTACH_ERROR_INTERNAL,
    ATTACH_ERROR_RESOURCE.
  destruct (fst (wait_for_listener _ _ _)); simpl;
    [|exists 100, s; repeat split; try done; intros; try lia; intuition congruence].
  destruct (illegal_arguments _ _ _ _ _); simpl;
    [exists 102, s; repeat split; try done; intros; try lia; intuition congruence|].
  destruct (mutex_wait env =? WAIT_OBJECT_0); simpl;
    [|exists 103, s; repeat split; try done; intros; try lia; intuition congruence].
  destruct free as [|a free].
  - rewrite (enqueue_locked_full _ _ _ _ _ _ _ _ Hs).
    exists 101, s. unfold ATTACH_ERROR_RESOURCE.
    repeat split; try done; intros; try lia; intuition congruence.
  - pose proof (shape_lengths _ _ _ _ Hs) as Hlen. simpl in Hlen.
    assert (Hroom : _enqueued_ops_semaphore s + 1 <= max_enqueued_operations).
    { unfold max_enqueued_operations. lia. }
    destruct (enqueue_locked_free _ _ _ _ ver cmd arg0 arg1 arg2 pipename Hs Hroom)
      as (r & s' & _ & Hlk & _).
    rewrite Hlk. exists 0, s'.
    repeat split; try done; intros; try lia; intuition congruence.
Qed.

(** X11. From any well-shaped state with a request available, a call of
    enqueue that passes the checks takes the request at the head of the
    available list and puts it at the tail of the queue: the rest of the
    available list and the requests already queued keep their order, the
    request holds what the call sent, the other requests hold what they
    held, and the semaphore is one higher. *)
Theorem enqueue_appends_to_queue (env : enqueue_env) (s : Win32AttachListener.t)
    (a : addr) (free queue : list addr) (c : call) :
  shape s (a :: free) queue [] ->
  _enqueued_ops_semaphore s = Z.of_nat (length queue) ->
  ready env -> acceptable c ->
  exists s',
    enqueue_call env s c = Ok (0, s') /\
    shape s' free (queue ++ [a]) [] /\
    pool s' = free /\
    pending s' = queue ++ [a] /\
    _enqueued_ops_semaphore s' = _enqueued_ops_semaphore s + 1 /\
    stored <$> requests s' !! a = Some (sent c) /\
    forall x, x <> a -> stored <$> requests s' !! x = stored <$> requests s !! x.
Proof.
  intros Hs Hsem Henv Hacc.
  pose proof (shape_lengths _ _ _ _ Hs) as Hlen. simpl in Hlen.
  assert (Hroom : _enqueued_ops_semaphore s + 1 <= max_enqueued_operations).
  { unfold max_enqueued_operations. lia. }
  destruct (enqueue_locked_free _ _ _ _ (call_ver c) (call_cmd c) (call_arg0 c)
              (call_arg1 c) (call_arg2 c) (call_pipename c) Hs Hroom)
    as (r & s' & Hr & Hlk & Hs' & Hsem' & Ha & Hother).
  exists s'. rewrite (enqueue_call_locked _ _ _ Henv Hacc).
  split; [done|]. split; [done|].
  split; [by apply (shape_pool _ _ _ _ Hs')|].
  split; [by apply (shape_pending _ _ _ _ Hs')|]. split; [done|]. split.
  - rewrite Ha. simpl. f_equal. apply stored_set; [|done].
    exact (shape_sized _ _ _ _ Hs a r Hr).
  - intros x Hx. by apply stored_same_unlinked, Hother.
Qed.

(** X12. From any well-shaped state with a request queued, a turn of dequeue
    whose waits return takes the request at the head of the queue, dispatches
    what it holds, and puts it at the head of the available list: the queue
    loses its head, the semaphore is one lower, and no request changes what
    it holds. *)
Theorem dequeue_turn_pops_head (s : Win32AttachListener.t) (free : list addr)
    (a : addr) (queue : list addr) (e : dequeue_env) (w : World.t) :
  shape s free (a :: queue) [] ->
  calm e ->
  exists r s' w' op,
    requests s !! a = Some r /\
    dispatch r e w = Ok (op, w') /\
    dequeue_turn s e w = Ok (s', w', Some a, op) /\
    shape s' (a :: free) queue [] /\
    pool s' = a :: free /\
    pending s' = queue /\
    _enqueued_ops_semaphore s' = _enqueued_ops_semaphore s - 1 /\
    forall x, stored <$> requests s' !! x = stored <$> requests s !! x.
Proof.
  intros Hs He.
  destruct (dequeue_turn_shape _ _ _ _ e w Hs He)
    as (r & s' & op & w' & Hr & Hturn & Hd & Hs' & Hsem' & Hother).
  exists r, s', w', op. split; [done|]. split; [done|]. split; [done|].
  split; [done|]. split; [by apply (shape_pool _ _ _ _ Hs')|].
  split; [by apply (shape_pending _ _ _ _ Hs')|]. split; [done|].
  intros x. apply stored_same_unlinked, Hother.
Qed.

(** X13. The available list is a stack: the request a turn of dequeue has
    just put back is the one the next call of enqueue takes. *)
Theorem freed_slot_is_reused_first (s : Win32AttachListener.t) (free : list addr)
    (a : addr) (queue : list addr) (e : dequeue_env) (w : World.t)
    (env : enqueue_env) (c : call) :
  shape s free (a :: queue) [] ->
  _enqueued_ops_semaphore s = Z.of_nat (length (a :: queue)) ->
  calm e -> ready env -> acceptable c ->
  exists s1 w1 op s2,
    dequeue_turn s e w = Ok (s1, w1, Some a, op) /\
    enqueue_call env s1 c = Ok (0, s2) /\
    pool s2 = free /\
    pending s2 = queue ++ [a] /\
    stored <$> requests s2 !! a = Some (sent c).
Proof.
  intros Hs Hsem He Henv Hacc.
  destruct (dequeue_turn_shape _ _ _ _ e w Hs He)
    as (r & s1 & op & w1 & Hr & Hturn & _ & Hs1 & Hsem1 & _).
  pose proof (shape_lengths _ _ _ _ Hs1) as Hlen. simpl in Hlen.
  assert (Hroom : _enqueued_ops_semaphore s1 + 1 <= max_enqueued_operations).
  { unfold max_enqueued_operations. rewrite Hsem1, Hsem. simpl length. lia. }
  destruct (enqueue_locked_free _ _ _ _ (call_ver c) (call_cmd c) (call_arg0 c)
              (call_arg1 c) (call_arg2 c) (call_pipename c) Hs1 Hroom)
    as (r1 & s2 & Hr1 & Hlk & Hs2 & _ & Ha & _).
  exists s1, w1, op, s2. split; [done|].
  split; [by rewrite (enqueue_call_locked _ _ _ Henv Hacc)|].
  split; [by apply (shape_pool _ _ _ _ Hs2)|].
  split; [by apply (shape_pending _ _ _ _ Hs2)|].
  rewrite Ha. simpl. f_equal. apply stored_set; [|done].
  exact (shape_sized _ _ _ _ Hs1 a r1 Hr1).
Qed.

(** X14. The return of the request to the available list is outside the test
    for a null head: a turn of dequeue that finds the queue empty
    dereferences a null pointer, and so does dequeue when the semaphore is
    positive while the queue is empty. *)
Theorem dequeue_empty_queue_faults (s : Win32AttachListener.t) (e : dequeue_env)
    (script : list dequeue_env) (w : World.t) :
  _head s = None ->
  calm e ->
  dequeue_turn s e w = Fault NullDeref /\
  (0 < _enqueued_ops_semaphore s -> dequeue (e :: script) s w = Fault NullDeref).
Proof.
  intros Hhead [Hw1 Hw2].
  assert (Hturn : dequeue_turn s e w = Fault NullDeref).
  { unfold dequeue_turn, dequeue_wake. rewrite Hw1, Hw2. simpl.
    unfold dequeue_take, head. simpl. rewrite Hhead. reflexivity. }
  split; [done|]. intros Hpos. simpl.
  destruct (Z.leb_spec (_enqueued_ops_semaphore s) 0); [lia|]. by rewrite Hturn.
Qed.

(** X15. A turn of dequeue that finds a request queued goes through exactly
    when both of its waits return WAIT_OBJECT_0; with any other value from
    the wait for the semaphore or from the wait for the mutex it stops on a
    failed [guarantee], where enqueue answers a failed wait for the mutex
    with the code 103. *)
Theorem dequeue_turn_guarantees (s : Win32AttachListener.t) (free : list addr)
    (a : addr) (queue : list addr) (e : dequeue_env) (w : World.t)
    (env : enqueue_env) (c : call) :
  shape s free (a :: queue) [] ->
  (calm e <-> exists res, dequeue_turn s e w = Ok res) /\
  (~ calm e <-> dequeue_turn s e w = Fault GuaranteeFailed) /\
  (fst (wait_for_listener (is_initialized env) 0 []) = true -> acceptable c ->
   mutex_wait env <> WAIT_OBJECT_0 ->
   enqueue_call env s c = Ok (ATTACH_ERROR_INTERNAL, s)).
Proof.
  intros Hs.
  assert (Hcalm : calm e -> exists res, dequeue_turn s e w = Ok res).
  { intros He. destruct (dequeue_turn_shape _ _ _ _ e w Hs He)
      as (r & s' & op & w' & _ & Hturn & _). eauto. }
  assert (Hnot : ~ calm e -> dequeue_turn s e w = Fault GuaranteeFailed).
  { intros He. unfold calm in He. unfold dequeue_turn, dequeue_wake.
    unfold WAIT_OBJECT_0, WAIT_FAILED in *.
    destruct (Z.eqb_spec (semaphore_wait e) 0) as [Hw1|Hw1].
    - rewrite Hw1. simpl.
      destruct (Z.eqb_spec (dequeue_mutex_wait e) 0) as [Hw2|Hw2]; [tauto|].
      by destruct (dequeue_mutex_wait e =? _).
    - by destruct (semaphore_wait e =? _). }
  split; [|split].
  - split; [exact Hcalm|]. intros [res Hres].
    destruct (decide (semaphore_wait e = WAIT_OBJECT_0)) as [H1|H1];
      destruct (decide (dequeue_mutex_wait e = WAIT_OBJECT_0)) as [H2|H2];
      try (by split);
      (rewrite Hnot in Hres; [discriminate Hres | intros [? ?]; contradiction]).
  - split; [exact Hnot|]. intros Hf He.
    destruct (Hcalm He) as [res Hres]. rewrite Hres in Hf. discriminate Hf.
  - intros Hup Hacc Hm. unfold enqueue_call, enqueue. rewrite Hup. simpl.
    unfold acceptable in Hacc. rewrite Hacc.
    apply Z.eqb_neq in Hm. by rewrite Hm.
Qed.

End ListenerMore.

Section VersionsMore.
Context `{Bounds}.
Import Lists Win32AttachListener System.
Local Arguments Win32AttachOperationRequest.set_value : simpl never.

(** A call of enqueue made when the queue is empty, and the turn of dequeue
    that follows it. *)
Lemma enqueue_then_turn env s a free c e w :
  shape s (a :: free) [] [] ->
  _enqueued_ops_semaphore s = 0 ->
  ready env -> acceptable c -> calm e ->
  exists s1 r s2 w2 op,
    enqueue_call env s c = Ok (0, s1) /\
    _enqueued_ops_semaphore s1 = 1 /\
    requests s1 !! a = Some r /\
    stored r = sent c /\
    dequeue_turn s1 e w = Ok (s2, w2, Some a, op) /\
    dispatch r e w = Ok (op, w2) /\
    shape s2 (a :: free) [] [] /\
    _enqueued_ops_semaphore s2 = 0.
Proof.
  intros Hs Hsem Henv Hacc He.
  assert (Hroom : _enqueued_ops_semaphore s + 1 <= max_enqueued_operations).
  { rewrite Hsem. vm_compute. discriminate. }
  destruct (enqueue_locked_free _ _ _ _ (call_ver c) (call_cmd c) (call_arg0 c)
              (call_arg1 c) (call_arg2 c) (call_pipename c) Hs Hroom)
    as (r0 & s1 & Hr0 & Hlk & Hs1 & Hsem1 & Ha1 & _).
  simpl app in Hs1.
  destruct (dequeue_turn_shape _ _ _ _ e w Hs1 He)
    as (r & s2 & op & w2 & Hr & Hturn & Hd & Hs2 & Hsem2 & _).
  exists s1, r, s2, w2, op.
  split; [by rewrite (enqueue_call_locked _ _ _ Henv Hacc)|].
  split; [lia|]. split; [done|]. split.
  { rewrite Ha1 in Hr. injection Hr as <-. apply stored_set; [|done].
    exact (shape_sized _ _ _ _ Hs a r0 Hr0). }
  split; [done|]. split; [done|]. split; [done|]. lia.
Qed.

Lemma stored_ver r c : stored r = sent c -> Win32AttachOperationRequest.ver r = call_ver c.
Proof. unfold stored, sent. intros Heq. by injection Heq. Qed.

Lemma stored_pipe r c :
  stored r = sent c ->
  CStr.c_str (Win32AttachOperationRequest.pipe r) = CStr.c_str (call_pipename c).
Proof. unfold stored, sent. intros Heq. by injection Heq. Qed.

(** X16. enqueue does not look at the version: a call with a version that is
    neither V1 nor V2 is queued and answered with 0 like any other.  The
    turn of dequeue that takes it creates no operation and makes no system
    call; the request goes back to the available list and the listener
    thread is left waiting for the next one. *)
Theorem unsupported_version_is_dropped (env : enqueue_env) (s : Win32AttachListener.t)
    (a : addr) (free : list addr) (c : call) (v : Z) (e : dequeue_env)
    (script : list dequeue_env) (w : World.t) :
  shape s (a :: free) [] [] ->
  _enqueued_ops_semaphore s = 0 ->
  ready env -> acceptable c -> call_ver c = ATTACH_API_other v -> calm e ->
  exists s1 s2,
    enqueue_call env s c = Ok (0, s1) /\
    pending s1 = [a] /\
    dequeue_turn s1 e w = Ok (s2, w, Some a, None) /\
    pool s2 = a :: free /\
    pending s2 = [] /\
    dequeue (e :: script) s1 w = Ok (Blocked, s2, w).
Proof.
  intros Hs Hsem Henv Hacc Hver He.
  destruct (enqueue_then_turn env s a free c e w Hs Hsem Henv Hacc He)
    as (s1 & r & s2 & w2 & op & Henq & Hsem1 & Hr & Hst & Hturn & Hd & Hs2 & Hsem2).
  assert (Hv : Win32AttachOperationRequest.ver r = ATTACH_API_other v).
  { rewrite <- Hver. by apply stored_ver. }
  rewrite (dispatch_other r e w v Hv) in Hd. injection Hd as <- <-.
  exists s1, s2. split; [done|]. split.
  { assert (Hroom : _enqueued_ops_semaphore s + 1 <= max_enqueued_operations).
    { rewrite Hsem. vm_compute. discriminate. }
    destruct (enqueue_locked_free _ _ _ _ (call_ver c) (call_cmd c) (call_arg0 c)
                (call_arg1 c) (call_arg2 c) (call_pipename c) Hs Hroom)
      as (r0 & s1' & _ & Hlk & Hs1 & _).
    rewrite (enqueue_call_locked _ _ _ Henv Hacc), Hlk in Henq.
    injection Henq as ->. by apply (shape_pending _ _ _ _ Hs1). }
  split; [done|].
  split; [by apply (shape_pool _ _ _ _ Hs2)|].
  split; [by apply (shape_pending _ _ _ _ Hs2)|].
  simpl. rewrite Hsem1. simpl. rewrite Hturn. simpl.
  destruct script; simpl; by rewrite Hsem2.
Qed.

(** X17. JVM_EnqueueOperation_v2 passes empty strings for the command and
    the arguments, so of the parameter checks only those of the pipe name
    can fail, whatever the bounds for names and arguments are.  With a pipe
    name within its bound that begins with the pipe prefix the call returns
    0 and the request queued holds version V2, an empty command, three
    empty arguments and the pipe name; with any other pipe name it returns
    102 and changes nothing. *)
Theorem enqueue_v2_checks_pipe_name_only (env : enqueue_env)
    (s : Win32AttachListener.t) (a : addr) (free queue : list addr)
    (pipename : list ascii) :
  shape s (a :: free) queue [] ->
  _enqueued_ops_semaphore s = Z.of_nat (length queue) ->
  ready env ->
  let fits := (CStr.strlen pipename <= Win32AttachOperation.pipe_name_max)%nat in
  let prefixed := exists rest, CStr.c_str pipename = CStr.lit "\\.\pipe\" ++ rest in
  (fits /\ prefixed ->
     exists s',
       JVM_EnqueueOperation_v2 env s pipename = Ok (0, s') /\
       pending s' = queue ++ [a] /\
       stored <$> requests s' !! a =
         Some (ATTACH_API_V2, [], [[]; []; []], CStr.c_str pipename)) /\
  (~ (fits /\ prefixed) ->
     JVM_EnqueueOperation_v2 env s pipename = Ok (ATTACH_ERROR_ILLEGALARG, s)).
Proof.
  intros Hs Hsem Henv fits prefixed. subst fits prefixed.
  set (c := mk_call ATTACH_API_V2 [] [] [] [] pipename).
  assert (Hlegal : acceptable c <->
            (CStr.strlen pipename <= Win32AttachOperation.pipe_name_max)%nat /\
            exists rest, CStr.c_str pipename = CStr.lit "\\.\pipe\" ++ rest).
  { unfold acceptable. rewrite illegal_arguments_false, strstr_prefix. simpl.
    change (CStr.strlen []) with O. split; [tauto|]. intros [? ?].
    repeat split; try lia; done. }
  split.
  - intros Hok. apply Hlegal in Hok.
    pose proof (shape_lengths _ _ _ _ Hs) as Hlen. simpl in Hlen.
    assert (Hroom : _enqueued_ops_semaphore s + 1 <= max_enqueued_operations).
    { unfold max_enqueued_operations. lia. }
    destruct (enqueue_locked_free _ _ _ _ ATTACH_API_V2 [] [] [] [] pipename Hs Hroom)
      as (r & s' & Hr & Hlk & Hs' & _ & Ha & _).
    exists s'. split.
    { change (JVM_EnqueueOperation_v2 env s pipename) with (enqueue_call env s c).
      by rewrite (enqueue_call_locked _ _ _ Henv Hok). }
    split; [by apply (shape_pending _ _ _ _ Hs')|].
    rewrite Ha. simpl. f_equal.
    apply (stored_set r c); [|done]. exact (shape_sized _ _ _ _ Hs a r Hr).
  - intros Hbad. unfold JVM_EnqueueOperation_v2, enqueue.
    destruct Henv as [-> _]. simpl.
    destruct (illegal_arguments [] [] [] [] pipename) eqn:Hill; [done|].
    exfalso. apply Hbad, Hlegal. exact Hill.
Qed.

(** X18. A request queued by JVM_EnqueueOperation_v2 and taken by the next
    turn of dequeue: the pipe is opened for reading and writing under the
    name the request holds.  When the request is then read from the pipe,
    dequeue returns a new operation with the name and the arguments read
    and the pipe open; when reading fails, the operation is deleted, which
    closes the pipe, and the listener thread is left waiting; when the pipe
    cannot be opened nothing is closed.  In every case the request is back on
    the available list.  What [AttachOperation::read_request] reads is given
    by the turn: that function is not in this file. *)
Theorem v2_round_trip (env : enqueue_env) (s : Win32AttachListener.t) (a : addr)
    (free : list addr) (pipename : list ascii) (e : dequeue_env)
    (script : list dequeue_env) (w : World.t) :
  shape s (a :: free) [] [] ->
  _enqueued_ops_semaphore s = 0 ->
  ready env ->
  acceptable (mk_call ATTACH_API_V2 [] [] [] [] pipename) ->
  calm e ->
  let opening := SysCreateFile (CStr.c_str pipename) false (created e) in
  exists s1 s2 w2 ending,
    JVM_EnqueueOperation_v2 env s pipename = Ok (0, s1) /\
    dequeue (e :: script) s1 w = Ok (ending, s2, w2) /\
    pool s2 = a :: free /\ pending s2 = [] /\
    if created e =? INVALID_HANDLE_VALUE then
      ending = Blocked /\ World.ops w2 = World.ops w /\
      World.syslog w2 = World.syslog w ++ [opening]
    else
      match decoded e with
      | Some (n, args) =>
          exists op,
            ending = Returned op /\ World.ops w !! op = None /\
            World.ops w2 =
              <[op := Win32AttachOperation.mk n args (PipeChannel.mk (created e))]>
                (World.ops w) /\
            World.syslog w2 = World.syslog w ++ [opening]
      | None =>
          ending = Blocked /\ World.ops w2 = World.ops w /\
          World.syslog w2 = World.syslog w ++ [opening; SysCloseHandle (created e)]
      end.
Proof.
  intros Hs Hsem Henv Hacc He opening.
  set (c := mk_call ATTACH_API_V2 [] [] [] [] pipename) in *.
  destruct (enqueue_then_turn env s a free c e w Hs Hsem Henv Hacc He)
    as (s1 & r & s2 & w2 & op & Henq & Hsem1 & Hr & Hst & Hturn & Hd & Hs2 & Hsem2).
  pose proof (stored_ver _ _ Hst) as Hv. pose proof (stored_pipe _ _ Hst) as Hp.
  simpl in Hv, Hp.
  assert (Hblocked : forall s w, _enqueued_ops_semaphore s = 0 ->
            dequeue script s w = Ok (Blocked, s, w)).
  { intros s' w' Hz. destruct script; simpl; by rewrite Hz. }
  destruct (Z.eqb_spec (created e) INVALID_HANDLE_VALUE) as [Hc|Hc].
  - rewrite (dispatch_V2_no_pipe r e w Hv Hc), Hp in Hd. injection Hd as <- <-.
    eexists s1, s2, _, Blocked. split; [exact Henq|]. split.
    { simpl. rewrite Hsem1. simpl. rewrite Hturn. simpl. by apply Hblocked. }
    split; [by apply (shape_pool _ _ _ _ Hs2)|].
    split; [by apply (shape_pending _ _ _ _ Hs2)|].
    subst opening. rewrite Hc. done.
  - rewrite (dispatch_V2 r e w Hv Hc), Hp in Hd. cbv zeta in Hd.
    destruct (decoded e) as [[n args]|].
    + injection Hd as <- <-.
      eexists s1, s2, _, (Returned (fresh (dom (World.ops w)))).
      split; [exact Henq|]. split.
      { simpl. rewrite Hsem1. simpl. rewrite Hturn. simpl. done. }
      split; [by apply (shape_pool _ _ _ _ Hs2)|].
      split; [by apply (shape_pending _ _ _ _ Hs2)|].
      eexists. split; [done|]. split; [apply fresh_op_absent|]. done.
    + injection Hd as <- <-.
      eexists s1, s2, _, Blocked. split; [exact Henq|]. split.
      { simpl. rewrite Hsem1. simpl. rewrite Hturn. simpl. by apply Hblocked. }
      split; [by apply (shape_pool _ _ _ _ Hs2)|].
      split; [by apply (shape_pending _ _ _ _ Hs2)|]. done.
Qed.

(** X19. A request queued by JVM_EnqueueOperation and taken by the next turn
    of dequeue: the pipe is opened for writing only, under the name the call
    gave.  When it opens, dequeue returns a new operation with the command
    and the three arguments of the call; when it does not, the operation is
    deleted with nothing to close and the listener thread is left waiting. *)
Theorem v1_entry_round_trip (env : enqueue_env) (s : Win32AttachListener.t) (a : addr)
    (free : list addr) (cmd arg0 arg1 arg2 pipename : list ascii) (e : dequeue_env)
    (script : list dequeue_env) (w : World.t) :
  shape s (a :: free) [] [] ->
  _enqueued_ops_semaphore s = 0 ->
  ready env ->
  acceptable (mk_call ATTACH_API_V1 cmd arg0 arg1 arg2 pipename) ->
  calm e ->
  let opening := SysCreateFile (CStr.c_str pipename) true (created e) in
  exists s1 s2 w2 ending,
    JVM_EnqueueOperation env s cmd arg0 arg1 arg2 pipename = Ok (0, s1) /\
    dequeue (e :: script) s1 w = Ok (ending, s2, w2) /\
    pool s2 = a :: free /\ pending s2 = [] /\
    World.syslog w2 = World.syslog w ++ [opening] /\
    if created e =? INVALID_HANDLE_VALUE then
      ending = Blocked /\ World.ops w2 = World.ops w
    else
      exists op,
        ending = Returned op /\ World.ops w !! op = None /\
        World.ops w2 =
          <[op := Win32AttachOperation.mk (CStr.c_str cmd)
                    [CStr.c_str arg0; CStr.c_str arg1; CStr.c_str arg2]
                    (PipeChannel.mk (created e))]> (World.ops w).
Proof.
  intros Hs Hsem Henv Hacc He opening.
  set (c := mk_call ATTACH_API_V1 cmd arg0 arg1 arg2 pipename) in *.
  destruct (enqueue_then_turn env s a free c e w Hs Hsem Henv Hacc He)
    as (s1 & r & s2 & w2 & op & Henq & Hsem1 & Hr & Hst & Hturn & Hd & Hs2 & Hsem2).
  pose proof (stored_ver _ _ Hst) as Hv. pose proof (stored_pipe _ _ Hst) as Hp.
  simpl in Hv, Hp.
  assert (Hblocked : forall s w, _enqueued_ops_semaphore s = 0 ->
            dequeue script s w = Ok (Blocked, s, w)).
  { intros s' w' Hz. destruct script; simpl; by rewrite Hz. }
  destruct (Z.eqb_spec (created e) INVALID_HANDLE_VALUE) as [Hc|Hc].
  - rewrite (dispatch_V1_no_pipe r e w Hv Hc), Hp in Hd. injection Hd as <- <-.
    eexists s1, s2, _, Blocked. split; [exact Henq|]. split.
    { simpl. rewrite Hsem1. simpl. rewrite Hturn. simpl. by apply Hblocked. }
    split; [by apply (shape_pool _ _ _ _ Hs2)|].
    split; [by apply (shape_pending _ _ _ _ Hs2)|].
    subst opening. rewrite Hc. done.
  - assert (Hs1 : exists fr, shape s1 fr [a] []).
    { assert (Hroom : _enqueued_ops_semaphore s + 1 <= max_enqueued_operations).
      { rewrite Hsem. vm_compute. discriminate. }
      destruct (enqueue_locked_free _ _ _ _ (call_ver c) (call_cmd c) (call_arg0 c)
                  (call_arg1 c) (call_arg2 c) (call_pipename c) Hs Hroom)
        as (r0 & s1' & _ & Hlk & Hs1 & _).
      unfold c in Henq at 1.
      change (JVM_EnqueueOperation env s cmd arg0 arg1 arg2 pipename)
        with (enqueue_call env s c) in Henq.
      rewrite (enqueue_call_locked _ _ _ Henv Hacc), Hlk in Henq.
      injection Henq as ->. by exists free. }
    destruct Hs1 as [fr Hs1].
    pose proof (shape_sized _ _ _ _ Hs1 a r Hr) as (_ & Hargs & _).
    rewrite (dispatch_V1 r e w Hv Hargs Hc), Hp in Hd. cbv zeta in Hd.
    injection Hd as <- <-.
    eexists s1, s2, _, (Returned (fresh (dom (World.ops w)))).
    split; [exact Henq|]. split.
    { simpl. rewrite Hsem1. simpl. rewrite Hturn. simpl. done. }
    split; [by apply (shape_pool _ _ _ _ Hs2)|].
    split; [by apply (shape_pending _ _ _ _ Hs2)|].
    split; [done|].
    eexists. split; [done|]. split; [apply fresh_op_absent|]. simpl.
    unfold stored, sent in Hst. injection Hst as _ Hn Ha _. simpl in Hn, Ha.
    f_equal. f_equal; [exact Hn | exact Ha].
Qed.

End VersionsMore.

(** * The further properties on sample inputs *)

Section MoreSamples.
#[local] Existing Instance sample_bounds.
Import Lists Win32AttachListener System.

Lemma sample_state_executing_reachable : reachable sample_state_executing.
Proof.
  assert (Hback : dequeue_put_back (listener sample_state_in_service) (Some 3%nat)
                  = Ok (listener sample_state_executing)) by (by vm_compute).
  assert (Hpc : pc sample_state_in_service = InService (Some 3%nat) (Some 0%nat))
    by (by vm_compute).
  assert (Heq : sample_state_executing
                = System.mk (listener sample_state_executing)
                    (world sample_state_in_service)
                    match Some 0%nat with
                    | Some a => Executing a
                    | None => AtSemaphore
                    end)
    by (by vm_compute).
  rewrite Heq. eapply reachable_step; [exact sample_state_in_service_reachable|].
  exact (step_put_back sample_state_in_service (Some 3%nat) (Some 0%nat) _ Hpc Hback).
Qed.

Lemma sample_state_executing_pc : pc sample_state_executing = Executing 0%nat.
Proof. by vm_compute. Qed.

Lemma sample_env_ready : ready sample_env.
Proof. split; reflexivity. Qed.

Lemma sample_turn_calm : calm sample_turn.
Proof. split; reflexivity. Qed.

Lemma sample_call_acceptable : acceptable sample_call.
Proof. by vm_compute. Qed.

Lemma sample_call_v2_acceptable : acceptable sample_call_v2.
Proof. by vm_compute. Qed.

Lemma sample_call_other_acceptable : acceptable sample_call_other.
Proof. by vm_compute. Qed.

Lemma set_value_bounded_witness :
  let dst' :=
    Win32AttachOperationRequest.set_value (CStr.lit "old!") (Some (CStr.lit "hello")) 4 in
  length dst' = 4%nat /\
  CStr.c_str dst' = CStr.lit "hel" /\
  (CStr.strlen dst' <= 3)%nat /\
  dst' !! CStr.strlen dst' = Some CStr.NUL.
Proof.
  exact (set_value_bounded (CStr.lit "old!") (Some (CStr.lit "hello")) 3 eq_refl).
Defined.

Lemma set_value_overwrites_witness :
  Win32AttachOperationRequest.set_value (CStr.lit "old!") (Some (CStr.lit "a")) 4 =
    CStr.lit "a" ++ replicate 3 CStr.NUL.
Proof.
  exact (set_value_overwrites (CStr.lit "old!") (Some (CStr.lit "a")) 3 eq_refl).
Defined.

Lemma pipe_read_write_result_witness :
  (0 <= 4096 < 2 ^ 31 /\ 0 <= 100 <= DWORD_of_int 4096) /\
  PipeChannel_read 4096 true 100 = 100 /\
  PipeChannel_write 4096 false 100 = -1.
Proof.
  assert (Hsize : 0 <= 4096 < 2 ^ 31) by (split; [discriminate | reflexivity]).
  assert (Hn : 0 <= 100 <= DWORD_of_int 4096) by (split; discriminate).
  split; [exact (conj Hsize Hn)|].
  destruct (pipe_read_write_result 4096 true 100 Hsize Hn) as (_ & _ & Hread).
  destruct (pipe_read_write_result 4096 false 100 Hsize Hn) as (_ & Hwrite & _).
  split; [apply Hread; reflexivity | apply Hwrite; reflexivity].
Defined.

Lemma no_operation_or_handle_leak_witness :
  reachable sample_state_executing /\
  match held_op (pc sample_state_executing) with
  | Some a =>
      (exists o, World.ops (world sample_state_executing) = {[ a := o ]} /\
                 PipeChannel.opened (Win32AttachOperation._pipe o) = true) /\
      handles_open (World.syslog (world sample_state_executing)) = 1
  | None =>
      World.ops (world sample_state_executing) = ∅ /\
      handles_open (World.syslog (world sample_state_executing)) = 0
  end.
Proof.
  split; [exact sample_state_executing_reachable|].
  exact (no_operation_or_handle_leak sample_state_executing
           sample_state_executing_reachable).
Defined.

Lemma complete_after_dequeue_witness :
  exists w',
    complete (world sample_state_executing) (Some 0%nat) 0 (CStr.lit "OK") (true, true)
      = Ok w' /\
    World.ops w' = ∅ /\
    handles_open (World.syslog w') = 0 /\
    reachable (System.mk (listener sample_state_executing) w' AtSemaphore).
Proof.
  exact (complete_after_dequeue sample_state_executing 0%nat 0 (CStr.lit "OK")
           (true, true) sample_state_executing_reachable sample_state_executing_pc).
Defined.

Lemma enqueue_return_code_witness :
  exists s',
    enqueue sample_env init_state ATTACH_API_V1 (CStr.lit "C") (CStr.lit "a") [] []
      (CStr.lit "\\.\pipe\javatool1") = Ok (0, s').
Proof.
  destruct (enqueue_return_code sample_env init_state [3; 2; 1; 0]%nat [] ATTACH_API_V1
              (CStr.lit "C") (CStr.lit "a") [] [] (CStr.lit "\\.\pipe\javatool1")
              init_state_shape eq_refl)
    as (code & s' & Henq & _ & _ & _ & _ & Hzero & _).
  exists s'. rewrite Henq.
  assert (Hcode : code = 0).
  { apply Hzero. split; [reflexivity|]. split; [exact (f_equal negb sample_call_acceptable)|].
    split; [reflexivity | discriminate]. }
  by rewrite Hcode.
Defined.

Lemma enqueue_appends_to_queue_witness :
  exists s',
    enqueue_call sample_env sample_listener_two sample_call = Ok (0, s') /\
    shape s' [0%nat] ([3; 2]%nat ++ [1%nat]) [] /\
    pool s' = [0%nat] /\
    pending s' = [3; 2]%nat ++ [1%nat] /\
    _enqueued_ops_semaphore s' = _enqueued_ops_semaphore sample_listener_two + 1 /\
    stored <$> requests s' !! 1%nat = Some (sent sample_call) /\
    forall x, x <> 1%nat ->
      stored <$> requests s' !! x = stored <$> requests sample_listener_two !! x.
Proof.
  exact (enqueue_appends_to_queue sample_env sample_listener_two 1%nat [0%nat]
           [3; 2]%nat sample_call (proj1 sample_listener_two_shape)
           (proj2 sample_listener_two_shape) sample_env_ready sample_call_acceptable).
Defined.

Lemma dequeue_turn_pops_head_witness :
  exists r s' w' op,
    requests sample_listener_two !! 3%nat = Some r /\
    dispatch r sample_turn World.empty = Ok (op, w') /\
    dequeue_turn sample_listener_two sample_turn World.empty = Ok (s', w', Some 3%nat, op) /\
    shape s' [3; 1; 0]%nat [2%nat] [] /\
    pool s' = [3; 1; 0]%nat /\
    pending s' = [2%nat] /\
    _enqueued_ops_semaphore s' = _enqueued_ops_semaphore sample_listener_two - 1 /\
    forall x, stored <$> requests s' !! x = stored <$> requests sample_listener_two !! x.
Proof.
  exact (dequeue_turn_pops_head sample_listener_two [1; 0]%nat 3%nat [2%nat]
           sample_turn World.empty (proj1 sample_listener_two_shape) sample_turn_calm).
Defined.

Lemma freed_slot_is_reused_first_witness :
  exists s1 w1 op s2,
    dequeue_turn sample_listener_two sample_turn World.empty = Ok (s1, w1, Some 3%nat, op) /\
    enqueue_call sample_env s1 sample_call_v2 = Ok (0, s2) /\
    pool s2 = [1; 0]%nat /\
    pending s2 = [2%nat] ++ [3%nat] /\
    stored <$> requests s2 !! 3%nat = Some (sent sample_call_v2).
Proof.
  exact (freed_slot_is_reused_first sample_listener_two [1; 0]%nat 3%nat [2%nat]
           sample_turn World.empty sample_env sample_call_v2
           (proj1 sample_listener_two_shape) (proj2 sample_listener_two_shape)
           sample_turn_calm sample_env_ready sample_call_v2_acceptable).
Defined.

Lemma dequeue_empty_queue_faults_witness :
  dequeue_turn init_state sample_turn World.empty = Fault NullDeref /\
  (0 < _enqueued_ops_semaphore init_state ->
   dequeue [sample_turn] init_state World.empty = Fault NullDeref).
Proof.
  exact (dequeue_empty_queue_faults init_state sample_turn [] World.empty eq_refl
           sample_turn_calm).
Defined.

Lemma dequeue_turn_guarantees_witness :
  (calm sample_turn <->
   exists res, dequeue_turn sample_listener_two sample_turn World.empty = Ok res) /\
  (~ calm sample_turn <->
   dequeue_turn sample_listener_two sample_turn World.empty = Fault GuaranteeFailed) /\
  (fst (wait_for_listener (is_initialized sample_env) 0 []) = true ->
   acceptable sample_call ->
   mutex_wait sample_env <> WAIT_OBJECT_0 ->
   enqueue_call sample_env sample_listener_two sample_call
     = Ok (ATTACH_ERROR_INTERNAL, sample_listener_two)).
Proof.
  exact (dequeue_turn_guarantees sample_listener_two [1; 0]%nat 3%nat [2%nat]
           sample_turn World.empty sample_env sample_call
           (proj1 sample_listener_two_shape)).
Defined.

Lemma unsupported_version_is_dropped_witness :
  exists s1 s2,
    enqueue_call sample_env init_state sample_call_other = Ok (0, s1) /\
    pending s1 = [3%nat] /\
    dequeue_turn s1 sample_turn World.empty = Ok (s2, World.empty, Some 3%nat, None) /\
    pool s2 = [3; 2; 1; 0]%nat /\
    pending s2 = [] /\
    dequeue [sample_turn] s1 World.empty = Ok (Blocked, s2, World.empty).
Proof.
  exact (unsupported_version_is_dropped sample_env init_state 3%nat [2; 1; 0]%nat
           sample_call_other 3 sample_turn [] World.empty init_state_shape eq_refl
           sample_env_ready sample_call_other_acceptable eq_refl sample_turn_calm).
Defined.

Lemma enqueue_v2_checks_pipe_name_only_witness :
  let pipename := CStr.lit "\\.\pipe\javatool2" in
  let fits := (CStr.strlen pipename <= Win32AttachOperation.pipe_name_max)%nat in
  let prefixed := exists rest, CStr.c_str pipename = CStr.lit "\\.\pipe\" ++ rest in
  (fits /\ prefixed ->
     exists s',
       JVM_EnqueueOperation_v2 sample_env init_state pipename = Ok (0, s') /\
       pending s' = [] ++ [3%nat] /\
       stored <$> requests s' !! 3%nat =
         Some (ATTACH_API_V2, [], [[]; []; []], CStr.c_str pipename)) /\
  (~ (fits /\ prefixed) ->
     JVM_EnqueueOperation_v2 sample_env init_state pipename
       = Ok (ATTACH_ERROR_ILLEGALARG, init_state)).
Proof.
  exact (enqueue_v2_checks_pipe_name_only sample_env init_state 3%nat [2; 1; 0]%nat []
           (CStr.lit "\\.\pipe\javatool2") init_state_shape eq_refl sample_env_ready).
Defined.

Lemma v2_round_trip_witness :
  let pipename := CStr.lit "\\.\pipe\javatool2" in
  exists s1 s2 w2 ending,
    JVM_EnqueueOperation_v2 sample_env init_state pipename = Ok (0, s1) /\
    dequeue [sample_turn] s1 World.empty = Ok (ending, s2, w2) /\
    pool s2 = [3; 2; 1; 0]%nat /\ pending s2 = [] /\
    exists op,
      ending = Returned op /\ World.ops World.empty !! op = None /\
      World.ops w2 =
        <[op := Win32AttachOperation.mk (CStr.lit "jcmd") [CStr.lit "VM.version"]
                  (PipeChannel.mk 77)]> (World.ops World.empty) /\
      World.syslog w2 =
        World.syslog World.empty ++ [SysCreateFile (CStr.c_str pipename) false 77].
Proof.
  exact (v2_round_trip sample_env init_state 3%nat [2; 1; 0]%nat
           (CStr.lit "\\.\pipe\javatool2") sample_turn [] World.empty
           init_state_shape eq_refl sample_env_ready sample_call_v2_acceptable
           sample_turn_calm).
Defined.

Lemma v1_entry_round_trip_witness :
  let pipename := CStr.lit "\\.\pipe\javatool1" in
  exists s1 s2 w2 ending,
    JVM_EnqueueOperation sample_env init_state (CStr.lit "C") (CStr.lit "a") [] []
      pipename = Ok (0, s1) /\
    dequeue [sample_turn] s1 World.empty = Ok (ending, s2, w2) /\
    pool s2 = [3; 2; 1; 0]%nat /\ pending s2 = [] /\
    World.syslog w2 =
      World.syslog World.empty ++ [SysCreateFile (CStr.c_str pipename) true 77] /\
    exists op,
      ending = Returned op /\ World.ops World.empty !! op = None /\
      World.ops w2 =
        <[op := Win32AttachOperation.mk (CStr.lit "C") [CStr.lit "a"; []; []]
                  (PipeChannel.mk 77)]> (World.ops World.empty).
Proof.
  exact (v1_entry_round_trip sample_env init_state 3%nat [2; 1; 0]%nat
           (CStr.lit "C") (CStr.lit "a") [] [] (CStr.lit "\\.\pipe\javatool1")
           sample_turn [] World.empty
           init_state_shape eq_refl sample_env_ready sample_call_acceptable
           sample_turn_calm).
Defined.

End MoreSamples.
